(** * The skeleton source manager of CATMAID

    A shallow embedding of
    [django/applications/catmaid/static/libs/catmaid/skeleton_source_manager.js]
    and the properties of its registry of skeleton sources.

    Layout of the development:
    - [JsString]: the string primitives the manager uses ([substring],
      [indexOf], [replace] with a global one-character pattern);
    - [JsObj]: the own properties of plain objects used as dictionaries,
      with [Object.keys], and the names [Object.prototype] has;
    - [Dom]: the select elements that list the sources;
    - [Source]: the interface a skeleton source offers to the manager;
    - the manager itself, in a state-and-exception monad over a [world]
      holding the object store, [this.sources] and its prototype, the
      document and a trace of the calls and messages the manager sends
      out;
    - the properties. *)

From Stdlib Require Import Ascii String.
From stdpp Require Import gmap strings list sorting.

Open Scope Z_scope.

(** ** Strings

    A string is a sequence of code units; [ascii] gives the code units
    0..255.  Positions are integers, as in the source. *)
Module JsString.

Definition length (s : string) : Z := Z.of_nat (String.length s).

(** [s.indexOf(pat)] searched from position [i] of the original string,
    [s] being what is left of it: the first position where [pat] starts,
    [-1] when there is none. *)
Fixpoint indexOf_from (pat s : string) (i : Z) : Z :=
  if String.prefix pat s then i
  else match s with
       | EmptyString => -1
       | String _ s' => indexOf_from pat s' (i + 1)
       end.

Definition indexOf (s pat : string) : Z := indexOf_from pat s 0.

(** An argument of [substring] is clamped to [0 .. s.length]. *)
Definition clamp (s : string) (i : Z) : nat :=
  Z.to_nat (Z.min (Z.max i 0) (length s)).

(** [s.substring(start, stop)]: both ends clamped, and swapped when
    [start] is past [stop]. *)
Definition substring (s : string) (start stop : Z) : string :=
  let a := clamp s start in
  let b := clamp s stop in
  String.substring (Nat.min a b) (Nat.max a b - Nat.min a b) s.

(** [s.substring(start)]. *)
Definition substring_from (s : string) (start : Z) : string :=
  substring s start (length s).

(** [s.replace(/c/g, d)] for a one-character pattern [c]. *)
Fixpoint replace (c d : ascii) (s : string) : string :=
  match s with
  | EmptyString => EmptyString
  | String x s' => String (if bool_decide (x = c) then d else x) (replace c d s')
  end.

(** Whether a code unit occurs in a string. *)
Fixpoint contains_char (c : ascii) (s : string) : bool :=
  match s with
  | EmptyString => false
  | String x s' => bool_decide (x = c) || contains_char c s'
  end.

End JsString.

(** ** Objects used as dictionaries

    The own enumerable properties of a plain object, in creation order.
    Property names are strings.  [get], [set] and [delete] work on the
    own properties alone, as [Object.keys] does.  What a read [o[k]] or
    an assignment [o[k] = v] does when [k] is no own property depends on
    the prototype of the object: for [this.sources] the manager says it,
    in [read] and [add]. *)
Module JsObj.

Definition t (V : Type) : Type := list (string * V).

Definition empty {V : Type} : t V := [].

(** The own property [k] of [o], [None] when [o] has none. *)
Fixpoint get {V : Type} (o : t V) (k : string) : option V :=
  match o with
  | [] => None
  | (k', v) :: o' => if decide (k' = k) then Some v else get o' k
  end.

(** [o[k] = v] as far as the own properties go: an existing property
    keeps its place, a new one is created last. *)
Fixpoint set {V : Type} (o : t V) (k : string) (v : V) : t V :=
  match o with
  | [] => [(k, v)]
  | (k', v') :: o' =>
      if decide (k' = k) then (k', v) :: o' else (k', v') :: set o' k v
  end.

(** [delete o[k]]. *)
Fixpoint delete {V : Type} (o : t V) (k : string) : t V :=
  match o with
  | [] => []
  | (k', v') :: o' =>
      if decide (k' = k) then delete o' k else (k', v') :: delete o' k
  end.

(** The property names in creation order. *)
Definition own_keys {V : Type} (o : t V) : list string := o.*1.

Definition digit_val (c : ascii) : option N :=
  let n := N_of_ascii c in
  if ((48 <=? n) && (n <=? 57))%N then Some (n - 48)%N else None.

Fixpoint parse_digits (s : string) (acc : N) : option N :=
  match s with
  | EmptyString => Some acc
  | String c s' =>
      match digit_val c with
      | Some d => parse_digits s' (10 * acc + d)%N
      | None => None
      end
  end.

(** A property name is an array index when it is the canonical decimal
    form of an integer below [2^32 - 1]. *)
Definition array_index (k : string) : option N :=
  match k with
  | EmptyString => None
  | String c s' =>
      if bool_decide (c = "0"%char) && negb (bool_decide (s' = EmptyString)) then None
      else match parse_digits k 0 with
           | Some n => if (n <? 4294967295)%N then Some n else None
           | None => None
           end
  end.

Definition index_le (a b : N * string) : Prop := (a.1 ≤ b.1)%N.

#[global] Instance index_le_dec : RelDecision index_le.
Proof. intros a b. unfold index_le. apply _. Defined.

Definition index_keys (ks : list string) : list (N * string) :=
  omap (λ k, (λ n, (n, k)) <$> array_index k) ks.

Definition name_keys (ks : list string) : list string :=
  filter (λ k, array_index k = None) ks.

(** [Object.keys(o)]: the array indices in ascending order, then the
    other names in creation order. *)
Definition keys {V : Type} (o : t V) : list string :=
  (merge_sort index_le (index_keys (own_keys o))).*2
  ++ name_keys (own_keys o).

(** The property names of [Object.prototype], which every plain object
    inherits: those of the standard and the legacy accessors of its
    annex.  Under [__proto__] is the accessor of the prototype, under
    each of the others a function. *)
Definition object_prototype_names : list string :=
  [ "constructor"; "hasOwnProperty"; "isPrototypeOf";
    "propertyIsEnumerable"; "toLocaleString"; "toString"; "valueOf";
    "__proto__"; "__defineGetter__"; "__defineSetter__";
    "__lookupGetter__"; "__lookupSetter__" ].

Definition inherited (k : string) : bool :=
  bool_decide (k ∈ object_prototype_names).

End JsObj.

(** ** The select elements

    Modelled from the HTML standard: a drop-down [select] element (no
    [multiple], no disabled option), of which the manager uses [id],
    [options] and [selectedIndex]. *)
Module Dom.

(** [new Option(text, value)]: an option element with [text] as its
    text content and [value] as its value attribute, which is what
    [option.value] gives.  The manager never reads [option.text]. *)
Record opt : Type := Option { textContent : string; value : string }.

Record select : Type := Select {
  id : string;
  options : list opt;
  selectedIndex : Z   (* -1 when no option is selected *)
}.

#[global] Instance opt_eq_dec : EqDecision opt.
Proof. solve_decision. Defined.
#[global] Instance select_eq_dec : EqDecision select.
Proof. solve_decision. Defined.

(** [l[i]] for an integer [i], [None] for [undefined]. *)
Definition item {A : Type} (l : list A) (i : Z) : option A :=
  if i <? 0 then None else l !! Z.to_nat i.

(** [document.createElement('select')] followed by
    [setAttribute('id', i)]. *)
Definition create (i : string) : select :=
  {| id := i; options := []; selectedIndex := -1 |}.

(** [select.options.add(o)]: the option goes last; a drop-down with
    nothing selected then selects its first option. *)
Definition options_add (o : opt) (s : select) : select :=
  {| id := id s;
     options := options s ++ [o];
     selectedIndex := if selectedIndex s <? 0 then 0 else selectedIndex s |}.

(** [select.selectedIndex = i]: out of range deselects everything. *)
Definition set_selectedIndex (i : Z) (s : select) : select :=
  {| id := id s;
     options := options s;
     selectedIndex :=
       if (0 <=? i) && (i <? Z.of_nat (List.length (options s)))
       then i else -1 |}.

(** [select.options.length = n] for [n] not above the current length:
    the list is cut; when the selected option is cut off the first
    remaining one, if any, becomes selected. *)
Definition set_length (n : nat) (s : select) : select :=
  let opts := take n (options s) in
  {| id := id s;
     options := opts;
     selectedIndex :=
       if (0 <=? selectedIndex s)
          && (selectedIndex s <? Z.of_nat (List.length opts))
       then selectedIndex s
       else match opts with [] => -1 | _ :: _ => 0 end |}.

(** What jQuery's [val()] gives. *)
Inductive val : Type :=
| ValUndefined              (* no element matched *)
| ValNull                   (* a select with nothing selected *)
| ValString (s : string).

(** [$(select).val()]. *)
Definition select_val (s : select) : val :=
  match item (options s) (selectedIndex s) with
  | Some o => ValString (value o)
  | None => ValNull
  end.

(** The characters of [\w] and the hyphen. *)
Definition word_char (c : ascii) : bool :=
  let n := N_of_ascii c in
  ((48 <=? n) && (n <=? 57) || (65 <=? n) && (n <=? 90)
   || (97 <=? n) && (n <=? 122) || (n =? 95) || (n =? 45))%N.

(** The ids jQuery takes as they stand: [$('#' + i)] with [i] made of
    letters, digits, underscores and hyphens goes straight to
    [document.getElementById(i)].  Any other [i] is parsed as a
    selector, which finds other elements, or none, or raises. *)
Definition simple_id (i : string) : bool :=
  forallb word_char (list_ascii_of_string i)
  && negb (bool_decide (i = EmptyString)).

(** [$('#' + i)] for a [simple_id]: the first element of the document
    with that id.  The selectors other ids make are not modelled, and
    what is proved of a lookup is proved for a [simple_id]. *)
Definition by_id (i : string) (doc : list select) : option select :=
  List.find (λ s, bool_decide (id s = i)) doc.

(** [$('#' + i).val()]. *)
Definition val_by_id (i : string) (doc : list select) : val :=
  match by_id i doc with
  | Some s => select_val s
  | None => ValUndefined
  end.

(** A value used as a property name is first turned into a string. *)
Definition to_property_key (v : val) : string :=
  match v with
  | ValUndefined => "undefined"
  | ValNull => "null"
  | ValString s => s
  end.

End Dom.

(** ** Skeleton sources *)

(** A skeleton identifier, in its property-name form, the one
    [Object.keys] yields. *)
Definition skid : Type := string.

(** What [0 === v] gives for a value stored in a models object. *)
Class JsValue (V : Type) : Type := { is_zero : V → bool }.

Module Source.

(** Modelled from the spec: the contract of the sources, which are
    written elsewhere.  [PS] is the state of a source.  Queries return a
    value, commands return the new state of the source they are called
    on.  [setVisible] is an optional method: [None] when the object has
    no function under that name. *)
Class t (Model PS : Type) : Type := {
  getName : PS → string;
  getSelectedSkeletons : PS → list skid;
  getSelectedSkeletonModels : PS → JsObj.t Model;
  hasSkeleton : PS → skid → bool;
  highlight : PS → skid → PS;
  removeSkeletons : PS → list skid → PS;
  setVisible : PS → option (list skid → bool → PS)
}.

End Source.

(** Objects are known by their location in the store; [===] on sources
    is equality of locations. *)
Definition loc : Type := nat.

(** A method call the manager makes on a source. *)
Inductive call : Type :=
| Highlight (skeleton_id : skid)
| RemoveSkeletons (skeleton_ids : list skid)
| SetVisible (skeleton_ids : list skid) (visible : bool).

(** What the manager sends out: commands to sources, [console.log] and
    [growlAlert]. *)
Inductive event : Type :=
| Invoke (source : loc) (c : call)
| ConsoleLog (msg : string)
| GrowlAlert (title msg : string).

Inductive exn : Type := TypeError.

(** What a read [this.sources[key]] gives. *)
Inductive property : Type :=
| Ref (source : loc)             (* a source *)
| Builtin (name : string)        (* what [Object.prototype] has under
                                    [name]: a function, or, under
                                    [__proto__], [Object.prototype] *)
| Via (l : loc) (name : string)  (* what the source [l] has under [name],
                                    read through it as prototype *)
| Undefined.

#[global] Instance call_eq_dec : EqDecision call.
Proof. solve_decision. Defined.
#[global] Instance event_eq_dec : EqDecision event.
Proof. solve_decision. Defined.
#[global] Instance property_eq_dec : EqDecision property.
Proof. solve_decision. Defined.

Section Manager.
Context {Model PS : Type} `{!JsValue Model} `{!Source.t Model PS}.

(** A source object: the state its methods work on and its own
    property [linkTarget], [None] when absent. *)
Record object : Type := Object {
  impl : PS;
  linkTarget : option loc
}.

Record world : Type := World {
  heap : gmap loc object;      (* the source objects *)
  sources : JsObj.t loc;       (* this.sources: its own properties *)
  proto : option loc;          (* the prototype of this.sources: [None]
                                  while it is [Object.prototype], as for
                                  the [{}] of the constructor *)
  document : list Dom.select;  (* the elements in the page, in order *)
  trace : list event           (* oldest first *)
}.

(** *** Computations: a result or an exception, and the world reached *)
Inductive outcome (A : Type) : Type :=
| Return (a : A) (w : world)
| Throw (e : exn) (w : world).
Global Arguments Return {A} a w.
Global Arguments Throw {A} e w.

Definition M (A : Type) : Type := world → outcome A.

Definition ret {A : Type} (a : A) : M A := λ w, Return a w.

Definition bind {A B : Type} (m : M A) (k : A → M B) : M B :=
  λ w, match m w with
       | Return a w' => k a w'
       | Throw e w' => Throw e w'
       end.

Definition throw {A : Type} (e : exn) : M A := λ w, Throw e w.

Definition gets {A : Type} (f : world → A) : M A := λ w, Return (f w) w.

Definition modify (f : world → world) : M unit := λ w, Return tt (f w).

Local Notation "'let!' x ':=' m 'in' k" := (bind m (λ x, k))
  (at level 10, x name, m at level 100, k at level 200).
Local Notation "m ';;' k" := (bind m (λ _, k))
  (at level 100, k at level 200, right associativity).

(** [l.forEach(f)]. *)
Fixpoint forEach {A : Type} (f : A → M unit) (l : list A) : M unit :=
  match l with
  | [] => ret tt
  | x :: l' => f x ;; forEach f l'
  end.


Definition set_heap (h : gmap loc object) (w : world) : world :=
  {| heap := h; sources := sources w; proto := proto w;
     document := document w; trace := trace w |}.

Definition set_sources (s : JsObj.t loc) (w : world) : world :=
  {| heap := heap w; sources := s; proto := proto w;
     document := document w; trace := trace w |}.

Definition set_proto (p : option loc) (w : world) : world :=
  {| heap := heap w; sources := sources w; proto := p;
     document := document w; trace := trace w |}.

Definition set_document (d : list Dom.select) (w : world) : world :=
  {| heap := heap w; sources := sources w; proto := proto w;
     document := d; trace := trace w |}.

Definition emit (e : event) (w : world) : world :=
  {| heap := heap w; sources := sources w; proto := proto w;
     document := document w; trace := trace w ++ [e] |}.

(** Reaching into a source: a location that holds no object stands for
    a value that is no source, and using it raises a [TypeError]. *)
Definition deref (l : loc) : M object :=
  λ w, match heap w !! l with
       | Some o => Return o w
       | None => Throw TypeError w
       end.

(** [source.getName()]. *)
Definition call_getName (source : loc) : M string :=
  let! o := deref source in ret (Source.getName (impl o)).

(** What a command does to the state of the source it is called on;
    [None] when the source has no such method. *)
Definition apply_call (c : call) (s : PS) : option PS :=
  match c with
  | Highlight skeleton_id => Some (Source.highlight s skeleton_id)
  | RemoveSkeletons skeleton_ids =>
      Some (Source.removeSkeletons s skeleton_ids)
  | SetVisible skeleton_ids visible =>
      (λ f, f skeleton_ids visible) <$> Source.setVisible s
  end.

(** [source.m(args)] for a command [m]: the call is recorded and the
    source moves to its new state. *)
Definition invoke (source : loc) (c : call) : M unit :=
  let! o := deref source in
  match apply_call c (impl o) with
  | Some s' =>
      modify (λ w, emit (Invoke source c)
        (set_heap (<[source := {| impl := s';
                                  linkTarget := linkTarget o |}]> (heap w)) w))
  | None => throw TypeError
  end.

(** [this.sources[name]] for a [name] that [Object.keys(this.sources)]
    gave, an own property, where a source is expected next. *)
Definition source_at (name : string) : M loc :=
  λ w, match JsObj.get (sources w) name with
       | Some l => Return l w
       | None => Throw TypeError w
       end.

(** *** The manager *)

(** A manager with no source yet, in a page [doc] with objects [h]. *)
Definition SkeletonSourceManager (h : gmap loc object)
    (doc : list Dom.select) : world :=
  {| heap := h; sources := JsObj.empty; proto := None; document := doc;
     trace := [] |}.

(** [this.sources[name] = source].  Under the name [__proto__], unless
    the table has an own property of that name, the assignment goes to
    the accessor every object inherits: the source becomes the prototype
    of the table and no property is made.  Under any other name the
    property is made or overwritten (a source that has become the
    prototype is taken to have no setter and no read-only property
    under a name). *)
Definition add (source : loc) : M unit :=
  let! name := call_getName source in
  modify (λ w,
    if decide (name = "__proto__" ∧ JsObj.get (sources w) name = None)
    then set_proto (Some source) w
    else set_sources (JsObj.set (sources w) name source) w).

(** [Object.keys(srcs).sort().map(name => new Option(name, name))]. *)
Definition options_of (srcs : JsObj.t loc) : list Dom.opt :=
  (λ name, Dom.Option name name) <$> merge_sort String.le (JsObj.keys srcs).

Definition createOptions : M (list Dom.opt) :=
  gets (λ w, options_of (sources w)).

Definition select_prefix : string := "skeleton-source-select-".

(** The name [updateGUI] reads back from the id of a select. *)
Definition select_name (id : string) : string :=
  let ipush := JsString.indexOf id "-push-" in
  JsString.replace "-" " "
    (if decide (-1 = ipush) then JsString.substring_from id 23
     else JsString.substring id 23 ipush).

(** The body of the loop of [updateGUI] over the options. *)
Definition offer (name selected : string) (select : Dom.select)
    (option : Dom.opt) : Dom.select :=
  if decide (Dom.value option = name) then select (* ignore self *)
  else
    let select := Dom.options_add option select in
    if decide (Dom.value option = selected)
    then Dom.set_selectedIndex
           (Z.of_nat (List.length (Dom.options select)) - 1) select
    else select.

(** What [updateGUI] does to one select, [opts] being what
    [createOptions] gives. *)
Definition rebuild (opts : list Dom.opt) (select : Dom.select)
    : exn + Dom.select :=
  let name := select_name (Dom.id select) in
  let selectedIndex :=
    if decide (Dom.selectedIndex select = -1) then 0
    else Dom.selectedIndex select in
  match Dom.item (Dom.options select) selectedIndex with
  | None => inl TypeError
  | Some o =>
      let selected := Dom.value o in
      match Dom.item (Dom.options select) 0 with
      | None => inl TypeError
      | Some o0 =>
          let select :=
            Dom.set_length
              (if decide (Dom.value o0 = "None") then 1 else 0)%nat select in
          let select := Dom.set_selectedIndex 0 select in
          inr (fold_left (offer name selected) opts select)
      end
  end.

(** [$("[id^='skeleton-source-select-']").each(f)] over the document:
    the matching elements are rebuilt in order, up to the first
    exception. *)
Fixpoint each (f : Dom.select → exn + Dom.select) (doc : list Dom.select)
    : list Dom.select * option exn :=
  match doc with
  | [] => ([], None)
  | s :: doc' =>
      if String.prefix select_prefix (Dom.id s) then
        match f s with
        | inl e => (s :: doc', Some e)
        | inr s' => let (d, r) := each f doc' in (s' :: d, r)
        end
      else let (d, r) := each f doc' in (s :: d, r)
  end.

Definition updateGUI : M unit :=
  λ w, match each (rebuild (options_of (sources w))) (document w) with
       | (doc, None) => Return tt (set_document doc w)
       | (doc, Some e) => Throw e (set_document doc w)
       end.

(** The body of the loop of [remove] over the remaining sources. *)
Definition unlink (source : loc) (name : string) : M unit :=
  let! s := source_at name in
  let! o := deref s in
  if decide (linkTarget o = Some source)
  then modify (λ w, set_heap
         (<[s := {| impl := impl o; linkTarget := None |}]> (heap w)) w)
  else ret tt.

Definition remove (source : loc) : M unit :=
  let! name := call_getName source in
  modify (λ w, set_sources (JsObj.delete (sources w) name) w) ;;
  updateGUI ;;
  let! names := gets (λ w, JsObj.keys (sources w)) in
  forEach (unlink source) names.

Definition select_id_of (name : string) : string :=
  select_prefix +:+ JsString.replace " " "-" name.

Definition createSelectID (source : loc) : M string :=
  let! name := call_getName source in ret (select_id_of name).

(** The elements of an array with their positions. *)
Definition indexed {A : Type} (l : list A) : list (Z * A) :=
  imap (λ i x, (Z.of_nat i, x)) l.

(** The body of the loop of [createSelect]; [i] is the position of the
    option in what [createOptions] gives. *)
Definition list_option (name : string) (select : Dom.select)
    (entry : Z * Dom.opt) : Dom.select :=
  let '(i, option) := entry in
  let select :=
    if decide (Dom.value option ≠ name)
    then Dom.options_add option select else select in
  if decide (Dom.value option = "Active skeleton")
  then Dom.set_selectedIndex i select else select.

Definition createSelect (source : loc) : M Dom.select :=
  let! id := createSelectID source in
  let select := Dom.create id in
  let! name := call_getName source in
  let! opts := createOptions in
  ret (fold_left (list_option name) (indexed opts) select).

(** The body of the loop of [createPushSelect]. *)
Definition list_push_option (name : string) (select : Dom.select)
    (option : Dom.opt) : Dom.select :=
  if decide (Dom.value option ≠ name)
  then Dom.options_add option select else select.

Definition createPushSelect (source : loc) (suffix : string)
    : M Dom.select :=
  let! id := createSelectID source in
  let select := Dom.create (id +:+ "-push-" +:+ suffix) in
  let select := Dom.options_add (Dom.Option "None" "None") select in
  let! name := call_getName source in
  let! opts := createOptions in
  ret (fold_left (list_push_option name) opts select).

(** [this.sources[key]]: an own property first, then the prototype.
    While that is [Object.prototype] the table inherits its names and
    has nothing under any other.  Once a source is the prototype,
    [__proto__] gives that source and any other name is looked up in
    it. *)
Definition read (key : string) (w : world) : property :=
  match JsObj.get (sources w) key with
  | Some source => Ref source
  | None =>
      match proto w with
      | None => if JsObj.inherited key then Builtin key else Undefined
      | Some l => if decide (key = "__proto__") then Ref l else Via l key
      end
  end.

(** [this.sources[$('#' + id).val()]]. *)
Definition selected_source (id : string) : M property :=
  gets (λ w, read (Dom.to_property_key (Dom.val_by_id id (document w))) w).

Definition getSelectedSource (ref_source : loc) : M property :=
  let! id := createSelectID ref_source in selected_source id.

Definition getSelectedPushSource (ref_source : loc) (suffix : string)
    : M property :=
  let! id := createSelectID ref_source in
  selected_source (id +:+ "-push-" +:+ suffix).

Definition getSource (name : string) : M property :=
  gets (read name).

(** [!source] sends [undefined] to the first exit.  What
    [Object.prototype] has is a function or an object without the
    method called next, so that call raises.  What a source that has
    become the prototype has under a name is not known: it is taken to
    be nothing, and what is proved of the two functions below is proved
    for a table with the prototype it was made with. *)
Definition getSelectedSkeletons (ref_source : loc) : M (list skid) :=
  let! source := getSelectedSource ref_source in
  match source with
  | Undefined | Via _ _ =>
      let! ref_name := call_getName ref_source in
      modify (emit (ConsoleLog
        ("No source found for reference source " +:+ ref_name))) ;;
      ret []
  | Builtin _ => throw TypeError
  | Ref source =>
      let! o := deref source in
      let skeletons := Source.getSelectedSkeletons (impl o) in
      (if decide (0 = Z.of_nat (List.length skeletons))
       then let! name := call_getName source in
            modify (emit (GrowlAlert "Info"
              ("No skeletons available at " +:+ name)))
       else ret tt) ;;
      ret skeletons
  end.

(** What [getSelectedSkeletonModels] returns: the array literal of its
    first exit or the models object of the selected source. *)
Inductive models_value : Type :=
| ArrayOf (l : list Model)
| ObjectOf (models : JsObj.t Model).

(** [0 === models.length] for a models object: [length] is an ordinary
    property name there. *)
Definition length_is_zero (models : JsObj.t Model) : bool :=
  match JsObj.get models "length" with
  | Some v => is_zero v
  | None => false
  end.

Definition getSelectedSkeletonModels (ref_source : loc) : M models_value :=
  let! source := getSelectedSource ref_source in
  match source with
  | Undefined | Via _ _ =>
      let! ref_name := call_getName ref_source in
      modify (emit (ConsoleLog
        ("No source found for reference source " +:+ ref_name))) ;;
      ret (ArrayOf [])
  | Builtin _ => throw TypeError
  | Ref source =>
      let! o := deref source in
      let models := Source.getSelectedSkeletonModels (impl o) in
      (if length_is_zero models
       then let! name := call_getName source in
            modify (emit (GrowlAlert "Info"
              ("No skeletons selected at " +:+ name)))
       else ret tt) ;;
      ret (ObjectOf models)
  end.



Definition highlight (caller : loc) (skeleton_id : skid) : M unit :=
  let! names := gets (λ w, JsObj.keys (sources w)) in
  forEach
    (λ name,
       let! source := source_at name in
       if decide (source = caller) then ret tt
       else invoke source (Highlight skeleton_id))
    names.

Definition removeSkeletons (skeleton_ids : list skid) : M unit :=
  let! names := gets (λ w, JsObj.keys (sources w)) in
  forEach
    (λ name,
       let! source := source_at name in
       invoke source (RemoveSkeletons skeleton_ids))
    names.

Definition setVisible (skeleton_ids : list skid) (visible : bool) : M unit :=
  let! names := gets (λ w, JsObj.keys (sources w)) in
  forEach
    (λ name,
       let! source := source_at name in
       let! o := deref source in
       if bool_decide (is_Some (Source.setVisible (impl o)))
       then invoke source (SetVisible skeleton_ids visible)
       else ret tt)
    names.

(** The handler the manager registers for [EVENT_SKELETON_DELETED]. *)
Definition on_skeleton_deleted (skeletonID : skid) : M unit :=
  removeSkeletons [skeletonID].

(** [add] for each source of a list in turn. *)
Definition add_all (l : list loc) : M unit := forEach add l.

End Manager.

(** ** A source to run the manager on *)

(** A neuron name is never the number zero. *)
#[global] Instance string_value : JsValue string := {| is_zero := λ _, false |}.

(** Modelled from the spec: a widget that honours the contract of the
    sources (the widgets are not in the manager's file).  It keeps its
    models in an object keyed by skeleton identifier, answers its
    queries from it, and its commands touch its own state only. *)
Record basic : Type := Basic {
  b_name : string;
  b_models : JsObj.t string;   (* skeleton identifier to neuron name *)
  b_active : option skid;      (* the skeleton highlighted last *)
  b_hidden : list skid;
  b_visibility : bool          (* whether the widget has [setVisible] *)
}.

Definition basic_highlight (b : basic) (skeleton_id : skid) : basic :=
  {| b_name := b_name b; b_models := b_models b;
     b_active := Some skeleton_id; b_hidden := b_hidden b;
     b_visibility := b_visibility b |}.

Definition basic_removeSkeletons (b : basic) (skeleton_ids : list skid)
    : basic :=
  {| b_name := b_name b;
     b_models := foldl JsObj.delete (b_models b) skeleton_ids;
     b_active := b_active b; b_hidden := b_hidden b;
     b_visibility := b_visibility b |}.

Definition basic_setVisible (b : basic) (skeleton_ids : list skid)
    (visible : bool) : basic :=
  {| b_name := b_name b; b_models := b_models b; b_active := b_active b;
     b_hidden :=
       if visible
       then filter (λ id, id ∉ skeleton_ids) (b_hidden b)
       else b_hidden b ++ skeleton_ids;
     b_visibility := b_visibility b |}.

#[global] Instance basic_source : Source.t string basic := {|
  Source.getName := b_name;
  Source.getSelectedSkeletons := λ b, JsObj.keys (b_models b);
  Source.getSelectedSkeletonModels := b_models;
  Source.hasSkeleton :=
    λ b id, bool_decide (is_Some (JsObj.get (b_models b) id));
  Source.highlight := basic_highlight;
  Source.removeSkeletons := basic_removeSkeletons;
  Source.setVisible :=
    λ b, if b_visibility b then Some (basic_setVisible b) else None
|}.

(** A widget with the given name and models, nothing highlighted or
    hidden, that has [setVisible]. *)
Definition widget (name : string) (models : JsObj.t string) : object :=
  {| impl := {| b_name := name; b_models := models; b_active := None;
                b_hidden := []; b_visibility := true |};
     linkTarget := None |}.

(** ** Pages to run the manager on *)

(** A widget like [widget] that lacks [setVisible] and has a
    [linkTarget]. *)
Definition linked_widget (name : string) (models : JsObj.t string)
    (target : loc) : object :=
  {| impl := {| b_name := name; b_models := models; b_active := None;
                b_hidden := []; b_visibility := false |};
     linkTarget := Some target |}.

(** Five widgets: [A] with skeletons 1 and 2, [B] with 2 and 3 and
    linked to [A], [C] with no skeleton, [Z], and a second widget that
    calls itself [A]. *)
Definition demo_heap : gmap loc (object (PS:=basic)) :=
  <[0%nat := widget "A" [("1", "n1"); ("2", "n2")]]>
  (<[1%nat := linked_widget "B" [("2", "n2"); ("3", "n3")] 0%nat]>
  (<[2%nat := widget "C" []]>
  (<[3%nat := widget "Z" []]>
  (<[4%nat := widget "A" [("7", "n7")]]> ∅)))).

(** A page where [A], [B] and [C] are registered and [Z] is not.  The
    select of [A] has [C] chosen; the select of [B] was made before [C]
    was added and has [A] chosen. *)
Definition demo_page : world (PS:=basic) :=
  {| heap := demo_heap;
     sources := [("A", 0%nat); ("B", 1%nat); ("C", 2%nat)];
     proto := None;
     document :=
       [ {| Dom.id := "skeleton-source-select-A";
            Dom.options := [Dom.Option "B" "B"; Dom.Option "C" "C"];
            Dom.selectedIndex := 1 |};
         {| Dom.id := "skeleton-source-select-B";
            Dom.options := [Dom.Option "A" "A"];
            Dom.selectedIndex := 0 |} ];
     trace := [] |}.

(** Two widgets [A-1] and [B]. *)
Definition hyphen_heap : gmap loc (object (PS:=basic)) :=
  <[0%nat := widget "A-1" []]> (<[1%nat := widget "B" []]> ∅).

(** A page where both are registered, with the select that
    [createSelect] makes for [A-1]. *)
Definition hyphen_page : world (PS:=basic) :=
  {| heap := hyphen_heap;
     sources := [("A-1", 0%nat); ("B", 1%nat)];
     proto := None;
     document :=
       [ {| Dom.id := "skeleton-source-select-A-1";
            Dom.options := [Dom.Option "B" "B"];
            Dom.selectedIndex := 0 |} ];
     trace := [] |}.


(** Three widgets the way CATMAID names them. *)
Definition active_heap : gmap loc (object (PS:=basic)) :=
  <[0%nat := widget "Active skeleton" [("5", "n5")]]>
  (<[1%nat := widget "Selection 1" []]>
  (<[2%nat := widget "Graph 1" []]> ∅)).

(** A page where the three are registered, without select yet. *)
Definition active_page : world (PS:=basic) :=
  {| heap := active_heap;
     sources := [("Active skeleton", 0%nat); ("Selection 1", 1%nat);
                 ("Graph 1", 2%nat)];
     proto := None;
     document := [];
     trace := [] |}.

(** A widget that calls itself [__proto__], and a widget [B]. *)
Definition proto_heap : gmap loc (object (PS:=basic)) :=
  <[0%nat := widget "__proto__" []]> (<[1%nat := widget "B" []]> ∅).

(** Two widgets [A] and [B], both registered, and the select of [A]. *)
Definition pair_page : world (PS:=basic) :=
  {| heap := <[0%nat := widget "A" []]> (<[1%nat := widget "B" []]> ∅);
     sources := [("A", 0%nat); ("B", 1%nat)];
     proto := None;
     document :=
       [ {| Dom.id := "skeleton-source-select-A";
            Dom.options := [Dom.Option "B" "B"];
            Dom.selectedIndex := 0 |} ];
     trace := [] |}.


(** A page where [A] alone is registered, with the select that
    [createSelect] makes for it then: it offers nothing. *)
Definition lonely_page : world (PS:=basic) :=
  {| heap := <[0%nat := widget "A" []]> ∅;
     sources := [("A", 0%nat)];
     proto := None;
     document :=
       [ {| Dom.id := "skeleton-source-select-A";
            Dom.options := [];
            Dom.selectedIndex := -1 |} ];
     trace := [] |}.


(** ** Vocabulary of the properties *)
Section Vocabulary.
Context {Model PS : Type} `{!Source.t Model PS}.
Implicit Types (w : world (PS:=PS)) (h : gmap loc (object (PS:=PS))).

(** The name of the source at a location of the store. *)
Definition name_of h (l : loc) : option string :=
  (λ o, Source.getName (impl o)) <$> h !! l.

(** The source added last under [name] by [add] on each of [l] in turn. *)
Definition last_added h (name : string) (l : list loc) : option loc :=
  last (filter (λ p, name_of h p = Some name) l).

(** A source is registered when some name of [this.sources] leads to
    it. *)
Definition registered w (l : loc) : Prop :=
  ∃ name, JsObj.get (sources w) name = Some l.

(** Every registered source is an object of the store. *)
Definition wf w : Prop :=
  ∀ name l, JsObj.get (sources w) name = Some l → is_Some (heap w !! l).

(** The property [getSelectedSource] reads in [this.sources] for a
    reference source called [name]. *)
Definition selected_key w (name : string) : string :=
  Dom.to_property_key (Dom.val_by_id (select_id_of name) (document w)).

(** A source with its [linkTarget] deleted. *)
Definition unlinked (o : object (PS:=PS)) : object (PS:=PS) :=
  {| impl := impl o; linkTarget := None |}.

(** A source in the state [s], with the [linkTarget] it has. *)
Definition with_state (s : PS) (o : object (PS:=PS)) : object (PS:=PS) :=
  {| impl := s; linkTarget := linkTarget o |}.

(** The table has each name once, as the properties of an object do,
    and no source is under two names. *)
Definition distinct_sources w : Prop :=
  NoDup (JsObj.own_keys (sources w))
  ∧ ∀ n1 n2 l, JsObj.get (sources w) n1 = Some l →
               JsObj.get (sources w) n2 = Some l → n1 = n2.

(** Whether a source has the optional method [setVisible]. *)
Definition can_setVisible (o : object (PS:=PS)) : bool :=
  bool_decide (is_Some (Source.setVisible (impl o))).

(** The contract of [removeSkeletons] on the side of the sources: a
    source no longer has the skeletons it was told to remove. *)
Definition honours_removal : Prop :=
  ∀ (s : PS) (ids : list skid) (id : skid),
    id ∈ ids → Source.hasSkeleton (Source.removeSkeletons s ids) id = false.

(** A select is listed when the selector of [updateGUI] finds it. *)
Definition listed (sel : Dom.select) : Prop :=
  String.prefix select_prefix (Dom.id sel) = true.

(** What a select has of the element it stands for: the index of the
    selected option is [-1] or that of one of its options. *)
Definition select_wf (sel : Dom.select) : Prop :=
  -1 ≤ Dom.selectedIndex sel
  ∧ Dom.selectedIndex sel < Z.of_nat (List.length (Dom.options sel)).

(** The names a select offers, in order. *)
Definition offered (sel : Dom.select) : list string :=
  Dom.value <$> Dom.options sel.

(** What the loop of [updateGUI] keeps true of the select it fills, [v]
    being the value found selected before. *)
Definition tracks (v : string) (sel : Dom.select) : Prop :=
  (Dom.options sel = [] → Dom.selectedIndex sel = -1)
  ∧ (v ∈ offered sel → Dom.select_val sel = Dom.ValString v)
  ∧ (v ∉ offered sel → Dom.options sel ≠ [] → Dom.selectedIndex sel = 0).

(** The page with one more element, put first. *)
Definition attach (sel : Dom.select) w : world (PS:=PS) :=
  set_document (sel :: document w) w.


(** The first entry of a select when it is the [None] entry that
    [updateGUI] keeps. *)
Definition kept_entry (sel : Dom.select) : list Dom.opt :=
  match Dom.options sel with
  | o0 :: _ => if decide (Dom.value o0 = "None") then [o0] else []
  | [] => []
  end.

(** The value [updateGUI] finds selected in a select: that of the option
    at [selectedIndex], or of the first option when the index is [-1];
    [None] when there is no such option. *)
Definition selected_value (sel : Dom.select) : option string :=
  Dom.value <$>
    Dom.item (Dom.options sel)
      (if decide (Dom.selectedIndex sel = -1) then 0
       else Dom.selectedIndex sel).

(** A select as [updateGUI] leaves it for a table [srcs]: the kept
    entry, then, in order, the names of the table other than the name
    read back from the id. *)
Definition rebuilt (srcs : JsObj.t loc) (sel sel' : Dom.select) : Prop :=
  Dom.id sel' = Dom.id sel
  ∧ ∃ rest,
      Dom.options sel' = kept_entry sel ++ rest
      ∧ StronglySorted String.le (Dom.value <$> rest)
      ∧ ∀ n, n ∈ Dom.value <$> rest
             ↔ is_Some (JsObj.get srcs n) ∧ n ≠ select_name (Dom.id sel).


(** What a broadcast leaves as it was: the table, the page, the
    [linkTarget] of every object, the objects that are not registered,
    and the set of objects. *)
Definition untouched_but_states w w' : Prop :=
  sources w' = sources w ∧ document w' = document w
  ∧ (∀ l, linkTarget <$> heap w' !! l = linkTarget <$> heap w !! l)
  ∧ ∀ l, ¬ registered w l → heap w' !! l = heap w !! l.


End Vocabulary.

(** * Properties *)

(** ** Objects *)
Section JsObjFacts.
Context {V : Type}.
Implicit Types (o : JsObj.t V) (k : string) (v : V).

Lemma get_set o k v k' :
  JsObj.get (JsObj.set o k v) k'
  = if decide (k = k') then Some v else JsObj.get o k'.
Proof.
  induction o as [|[k0 v0] o IH]; simpl.
  - repeat case_decide; congruence.
  - repeat (case_decide; simpl); try congruence.
Qed.

Lemma get_set_eq o k v : JsObj.get (JsObj.set o k v) k = Some v.
Proof. rewrite get_set. by case_decide. Qed.

Lemma get_set_ne o k v k' :
  k ≠ k' → JsObj.get (JsObj.set o k v) k' = JsObj.get o k'.
Proof. intros. rewrite get_set. by case_decide. Qed.

Lemma get_delete o k k' :
  JsObj.get (JsObj.delete o k) k'
  = if decide (k = k') then None else JsObj.get o k'.
Proof.
  induction o as [|[k0 v0] o IH]; simpl.
  - by case_decide.
  - repeat (case_decide; simpl); try congruence.
Qed.

Lemma get_delete_eq o k : JsObj.get (JsObj.delete o k) k = None.
Proof. rewrite get_delete. by case_decide. Qed.

Lemma get_delete_ne o k k' :
  k ≠ k' → JsObj.get (JsObj.delete o k) k' = JsObj.get o k'.
Proof. intros. rewrite get_delete. by case_decide. Qed.

Lemma delete_absent o k : JsObj.get o k = None → JsObj.delete o k = o.
Proof.
  induction o as [|[k0 v0] o IH]; simpl; [done|].
  case_decide; [done|]. intros Hk. by rewrite IH.
Qed.

Lemma elem_of_own_keys o k : k ∈ JsObj.own_keys o ↔ is_Some (JsObj.get o k).
Proof.
  unfold JsObj.own_keys. induction o as [|[k0 v0] o IH]; simpl.
  - rewrite elem_of_nil. split; [done|]. by intros [? ?].
  - rewrite elem_of_cons, IH. case_decide; subst.
    + split; eauto.
    + split; [intros [?|?]; [congruence|done]|auto].
Qed.

Lemma index_name_keys_perm (ks : list string) :
  (JsObj.index_keys ks).*2 ++ JsObj.name_keys ks ≡ₚ ks.
Proof.
  unfold JsObj.index_keys, JsObj.name_keys.
  induction ks as [|k ks IH]; [done|].
  simpl. rewrite filter_cons.
  case_decide as Hd.
  - rewrite Hd. simpl. rewrite <- Permutation_middle. by rewrite IH.
  - destruct (JsObj.array_index k) as [n|]; [|done].
    simpl. by rewrite IH.
Qed.

Lemma keys_perm o : JsObj.keys o ≡ₚ JsObj.own_keys o.
Proof.
  unfold JsObj.keys.
  rewrite (merge_sort_Permutation JsObj.index_le).
  apply index_name_keys_perm.
Qed.

Lemma elem_of_keys o k : k ∈ JsObj.keys o ↔ is_Some (JsObj.get o k).
Proof. rewrite keys_perm. apply elem_of_own_keys. Qed.

Lemma own_keys_set o k v :
  JsObj.own_keys (JsObj.set o k v)
  = if decide (k ∈ JsObj.own_keys o) then JsObj.own_keys o
    else JsObj.own_keys o ++ [k].
Proof.
  unfold JsObj.own_keys. induction o as [|[k0 v0] o IH].
  - case_decide as Hin; [|done]. by apply elem_of_nil in Hin.
  - cbn [JsObj.set]. destruct (decide (k0 = k)) as [->|Hne].
    + rewrite decide_True; [done|]. rewrite fmap_cons. apply elem_of_cons; auto.
    + rewrite !fmap_cons, IH. cbn [fst].
      destruct (decide (k ∈ o.*1)) as [Hin|Hin].
      * rewrite decide_True; [done|]. apply elem_of_cons; auto.
      * rewrite decide_False; [done|].
        rewrite elem_of_cons. intros [?|?]; congruence.
Qed.

Lemma NoDup_own_keys_set o k v :
  NoDup (JsObj.own_keys o) → NoDup (JsObj.own_keys (JsObj.set o k v)).
Proof.
  intros Hnd. rewrite own_keys_set. case_decide; [done|].
  apply NoDup_app. split_and!; [done| |apply NoDup_singleton].
  intros x Hx Hx'. apply list_elem_of_singleton in Hx'. by subst.
Qed.

Lemma NoDup_keys o : NoDup (JsObj.own_keys o) → NoDup (JsObj.keys o).
Proof. by rewrite keys_perm. Qed.

End JsObjFacts.

(** ** Running the manager *)
Section ManagerFacts.
Context {Model PS : Type} `{!JsValue Model} `{!Source.t Model PS}.
Implicit Types (w : world (PS:=PS)) (h : gmap loc (object (PS:=PS))).
Implicit Types (o : object (PS:=PS)) (l p q : loc).

Lemma bind_Return {A B} (m : M A) (k : A → M B) w a w1 :
  m w = Return a w1 → bind m k w = k a w1.
Proof. unfold bind. by intros ->. Qed.

Lemma bind_Throw {A B} (m : M A) (k : A → M B) w e w1 :
  m w = Throw e w1 → bind m k w = Throw e w1.
Proof. unfold bind. by intros ->. Qed.

Lemma bind_inv {A B} (m : M A) (k : A → M B) w b w' :
  bind m k w = Return b w' → ∃ a w1, m w = Return a w1 ∧ k a w1 = Return b w'.
Proof. unfold bind. destruct (m w) as [a w1|]; [eauto|done]. Qed.

Lemma deref_Some l o w : heap w !! l = Some o → deref l w = Return o w.
Proof. unfold deref. by intros ->. Qed.

Lemma deref_inv l o w w' :
  deref l w = Return o w' → w' = w ∧ heap w !! l = Some o.
Proof. unfold deref. destruct (heap w !! l); naive_solver. Qed.

Lemma call_getName_Some l o w :
  heap w !! l = Some o →
  call_getName l w = Return (Source.getName (impl o)) w.
Proof. intros Hl. unfold call_getName. by rewrite (bind_Return _ _ _ _ _ (deref_Some _ _ _ Hl)). Qed.

Lemma call_getName_inv l name w w' :
  call_getName l w = Return name w' →
  w' = w ∧ name_of (heap w) l = Some name.
Proof.
  unfold call_getName, name_of. intros (o & w1 & Hd & Hr)%bind_inv.
  apply deref_inv in Hd as [-> Hd]. unfold ret in Hr. rewrite Hd.
  naive_solver.
Qed.

Lemma source_at_Some name l w :
  JsObj.get (sources w) name = Some l → source_at name w = Return l w.
Proof. unfold source_at. by intros ->. Qed.

Lemma source_at_inv name l w w' :
  source_at name w = Return l w' →
  w' = w ∧ JsObj.get (sources w) name = Some l.
Proof. unfold source_at. destruct (JsObj.get _ _); naive_solver. Qed.

Lemma add_run l o w :
  heap w !! l = Some o →
  add l w
  = Return tt
      (if decide (Source.getName (impl o) = "__proto__"
                  ∧ JsObj.get (sources w) (Source.getName (impl o)) = None)
       then set_proto (Some l) w
       else set_sources
              (JsObj.set (sources w) (Source.getName (impl o)) l) w).
Proof.
  intros Hl. unfold add.
  by rewrite (bind_Return _ _ _ _ _ (call_getName_Some _ _ _ Hl)).
Qed.

(** [add] under a name that makes or overwrites a property. *)
Lemma add_Some l o w :
  heap w !! l = Some o →
  Source.getName (impl o) ≠ "__proto__"
  ∨ is_Some (JsObj.get (sources w) (Source.getName (impl o))) →
  add l w
  = Return tt (set_sources
                 (JsObj.set (sources w) (Source.getName (impl o)) l) w).
Proof.
  intros Hl Hname. rewrite (add_run l o w Hl).
  rewrite decide_False; [done|].
  intros [Hn Hg]. destruct Hname as [?|[? ?]]; congruence.
Qed.

(** [add] of a source called [__proto__] to a table without a property
    of that name. *)
Lemma add_proto l o w :
  heap w !! l = Some o →
  Source.getName (impl o) = "__proto__" →
  JsObj.get (sources w) "__proto__" = None →
  add l w = Return tt (set_proto (Some l) w).
Proof.
  intros Hl Hn Hg. rewrite (add_run l o w Hl), Hn.
  by rewrite decide_True.
Qed.

(** The table after a run of [add]: names keep the source added last,
    and the names not added keep what they had. *)
Lemma add_all_run (ps : list loc) w :
  (∀ p, p ∈ ps → is_Some (heap w !! p)) →
  (∀ p, p ∈ ps → name_of (heap w) p ≠ Some "__proto__") →
  NoDup (JsObj.own_keys (sources w)) →
  ∃ w', add_all ps w = Return tt w'
        ∧ heap w' = heap w ∧ document w' = document w
        ∧ trace w' = trace w ∧ proto w' = proto w
        ∧ NoDup (JsObj.own_keys (sources w'))
        ∧ ∀ name, JsObj.get (sources w') name
                  = match last_added (heap w) name ps with
                    | Some q => Some q
                    | None => JsObj.get (sources w) name
                    end.
Proof.
  revert w. induction ps as [|p ps IH]; intros w Hps Hnames Hnd.
  - exists w. by split_and!.
  - destruct (Hps p) as [o Ho]; [by left|].
    assert (Source.getName (impl o) ≠ "__proto__") as Hname.
    { intros Hn. apply (Hnames p); [by left|].
      unfold name_of. by rewrite Ho, <- Hn. }
    set (w1 := set_sources
                 (JsObj.set (sources w) (Source.getName (impl o)) p) w).
    destruct (IH w1) as (w' & Hrun & Hh & Hd & Ht & Hpr & Hnd' & Hget).
    { intros q Hq. apply Hps. by right. }
    { intros q Hq. apply Hnames. by right. }
    { by apply NoDup_own_keys_set. }
    exists w'. split_and!; try done.
    + unfold add_all in *. cbn [forEach].
      by rewrite (bind_Return _ _ _ _ _
                    (add_Some _ _ _ Ho (or_introl Hname))).
    + intros name. rewrite Hget. unfold last_added.
      rewrite filter_cons. cbn [w1 heap set_sources sources].
      destruct (last (filter _ ps)) as [q|] eqn:Hlast.
      * case_decide; [rewrite last_cons|]; by rewrite Hlast.
      * assert (name_of (heap w) p = Some (Source.getName (impl o))) as Hp
          by (unfold name_of; by rewrite Ho).
        rewrite get_set. case_decide as Hn.
        -- rewrite decide_True by congruence. by rewrite last_cons, Hlast.
        -- rewrite decide_False by congruence. by rewrite Hlast.
Qed.

(** C2, amended. Any sequence of [add] calls on an empty manager, of
    sources none of which is called [__proto__], succeeds and leaves
    exactly one entry per name added: the names of [this.sources] are
    distinct, they are the names of the sources added, and each leads
    to the source added last under it. *)
Theorem add_last_write_wins h (doc : list Dom.select) (ps : list loc) :
  (∀ p, p ∈ ps → is_Some (h !! p)) →
  (∀ p, p ∈ ps → name_of h p ≠ Some "__proto__") →
  ∃ w', add_all ps (SkeletonSourceManager h doc) = Return tt w'
        ∧ NoDup (JsObj.keys (sources w'))
        ∧ (∀ name, name ∈ JsObj.keys (sources w')
                   ↔ ∃ p, p ∈ ps ∧ name_of h p = Some name)
        ∧ (∀ name, JsObj.get (sources w') name = last_added h name ps).
Proof.
  intros Hps Hnames.
  destruct (add_all_run ps (SkeletonSourceManager h doc))
    as (w' & Hrun & _ & _ & _ & _ & Hnd & Hget); [done|done|constructor|].
  cbn [SkeletonSourceManager heap sources] in Hget.
  assert (Hget' : ∀ name,
    JsObj.get (sources w') name = last_added h name ps).
  { intros name. rewrite Hget. by destruct (last_added h name ps). }
  exists w'. split_and!; [done|by apply NoDup_keys| |done].
  intros name. rewrite elem_of_keys, Hget'. unfold last_added.
  split.
  - intros [q Hq]. exists q. apply last_Some_elem_of in Hq.
    by apply list_elem_of_filter in Hq as [? ?].
  - intros (p & Hp & Hname).
    destruct (last (filter _ ps)) as [q|] eqn:Hlast; [by eexists|].
    apply last_None in Hlast.
    assert (p ∈ filter (λ p, name_of h p = Some name) ps) as Hin
      by by apply list_elem_of_filter.
    rewrite Hlast in Hin. by apply elem_of_nil in Hin.
Qed.



Lemma registered_keys w l :
  registered w l
  ↔ ∃ name, name ∈ JsObj.keys (sources w)
            ∧ JsObj.get (sources w) name = Some l.
Proof.
  unfold registered. split; intros (name & H1); exists name.
  - split; [|done]. apply elem_of_keys. by eexists.
  - by destruct H1.
Qed.

Lemma wf_keys w :
  wf w →
  ∀ name, name ∈ JsObj.keys (sources w) →
          ∃ l, JsObj.get (sources w) name = Some l ∧ is_Some (heap w !! l).
Proof.
  intros Hwf name [l Hl]%elem_of_keys. exists l. split; [done|].
  by eapply Hwf.
Qed.

Lemma invoke_Some l o c s' w :
  heap w !! l = Some o → apply_call c (impl o) = Some s' →
  invoke l c w
  = Return tt (emit (Invoke l c)
      (set_heap (<[l := {| impl := s'; linkTarget := linkTarget o |}]>
                   (heap w)) w)).
Proof.
  intros Hl Hc. unfold invoke.
  rewrite (bind_Return _ _ _ _ _ (deref_Some _ _ _ Hl)). by rewrite Hc.
Qed.

(** *** Loops that call one command on some of the sources

    [highlight], [removeSkeletons] and [setVisible] all run, for each
    name of [this.sources], a body that calls a command [c] on the
    source under that name when a test [g] lets it. *)
Section Broadcast.
Variables (g : loc → object (PS:=PS) → bool) (c : call).
Variable body : string → M (PS:=PS) unit.
Hypothesis body_step : ∀ w name l o,
  JsObj.get (sources w) name = Some l → heap w !! l = Some o →
  body name w = if g l o then invoke l c w else Return tt w.
Hypothesis g_callable : ∀ l o,
  g l o = true → is_Some (apply_call c (impl o)).

Lemma broadcast_run (ns : list string) w :
  (∀ name, name ∈ ns →
     ∃ l, JsObj.get (sources w) name = Some l ∧ is_Some (heap w !! l)) →
  ∃ w' evs,
    forEach body ns w = Return tt w'
    ∧ sources w' = sources w ∧ document w' = document w
    ∧ trace w' = trace w ++ evs
    ∧ (∀ e, e ∈ evs
            ↔ ∃ name l o, name ∈ ns
                ∧ JsObj.get (sources w) name = Some l
                ∧ heap w !! l = Some o ∧ g l o = true
                ∧ e = Invoke l c)
    ∧ (∀ l, Invoke l c ∈ evs →
            ∃ o' s, heap w' !! l = Some o'
                    ∧ apply_call c s = Some (impl o'))
    ∧ (∀ l, Invoke l c ∉ evs → heap w' !! l = heap w !! l)
    ∧ (∀ l o', heap w' !! l = Some o' →
               ∃ o, heap w !! l = Some o
                    ∧ linkTarget o' = linkTarget o).
Proof.
  revert w. induction ns as [|name ns IH]; intros w Hns.
  { exists w, []. split_and!; try done.
    - by rewrite app_nil_r.
    - intros e. split; [by intros ?%elem_of_nil|].
      by intros (? & ? & ? & ?%elem_of_nil & _).
    - by intros l ?%elem_of_nil.
    - intros l o' Hl. by exists o'. }
  destruct (Hns name) as (l & Hl & [o Ho]); [by left|].
  cbn [forEach]. unfold bind at 1.
  rewrite (body_step w name l o Hl Ho).
  destruct (g l o) eqn:Hg.
  - destruct (g_callable l o Hg) as [s' Hs'].
    rewrite (invoke_Some l o c s' w Ho Hs').
    set (o1 := {| impl := s'; linkTarget := linkTarget o |}).
    set (w1 := emit (Invoke l c) (set_heap (<[l := o1]> (heap w)) w)).
    destruct (IH w1) as (w' & evs & Hrun & Hs & Hd & Ht & Hev & Hc & Hn & Hlt).
    { intros name' Hname'.
      destruct (Hns name') as (l' & Hl' & Hh'); [by right|].
      exists l'. split; [done|]. cbn.
      apply lookup_insert_is_Some'. by right. }
    exists w', (Invoke l c :: evs).
    split_and!; try done.
    + rewrite Ht. cbn. by rewrite <- app_assoc.
    + intros e. rewrite elem_of_cons, Hev. split.
      * intros [->|(name' & l' & o' & Hin & Hget & Hheap & Hg' & ->)].
        { exists name, l, o. split_and!; try done. by left. }
        destruct (decide (l' = l)) as [->|Hne].
        { exists name, l, o. split_and!; try done. by left. }
        exists name', l', o'. split_and!; try done; [by right|].
        cbn in Hheap. by rewrite lookup_insert_ne in Hheap.
      * intros (name' & l' & o' & Hin & Hget & Hheap & Hg' & ->).
        destruct (decide (l' = l)) as [->|Hne]; [by left|]. right.
        apply elem_of_cons in Hin as [->|Hin]; [congruence|].
        exists name', l', o'. split_and!; try done.
        cbn. by rewrite lookup_insert_ne.
    + intros l' Hin.
      destruct (decide (Invoke l' c ∈ evs)) as [Hin'|Hin']; [by apply Hc|].
      apply elem_of_cons in Hin as [Heq|?]; [|done].
      injection Heq as ->. exists o1, (impl o).
      rewrite (Hn l Hin'). cbn. by rewrite lookup_insert_eq.
    + intros l' Hnin. apply not_elem_of_cons in Hnin as [Hne Hnin].
      rewrite (Hn l' Hnin). cbn. rewrite lookup_insert_ne; [done|].
      congruence.
    + intros l' o' Hl'. destruct (Hlt l' o' Hl') as (o2 & Ho2 & Hlt2).
      cbn in Ho2. destruct (decide (l = l')) as [->|Hne].
      * rewrite lookup_insert_eq in Ho2. injection Ho2 as <-.
        by exists o.
      * rewrite lookup_insert_ne in Ho2 by done. by exists o2.
  - destruct (IH w) as (w' & evs & Hrun & Hs & Hd & Ht & Hev & Hc & Hn & Hlt).
    { intros name' Hname'. apply Hns. by right. }
    exists w', evs. split_and!; try done.
    intros e. rewrite Hev. split.
    + intros (name' & l' & o' & Hin & Hrest).
      exists name', l', o'. split; [by right|done].
    + intros (name' & l' & o' & Hin & Hget & Hheap & Hg' & ->).
      apply elem_of_cons in Hin as [->|Hin].
      * congruence.
      * by exists name', l', o'.
Qed.

(** When the names lead to sources that are all different, each source
    the test lets through is called once: it ends in the state the
    command yields from the state it had. *)
Lemma broadcast_once (ns : list string) w w' :
  NoDup ns →
  (∀ n1 n2 l, n1 ∈ ns → n2 ∈ ns →
     JsObj.get (sources w) n1 = Some l → JsObj.get (sources w) n2 = Some l →
     n1 = n2) →
  (∀ name, name ∈ ns →
     ∃ l, JsObj.get (sources w) name = Some l ∧ is_Some (heap w !! l)) →
  forEach body ns w = Return tt w' →
  ∀ name l o, name ∈ ns → JsObj.get (sources w) name = Some l →
    heap w !! l = Some o → g l o = true →
    ∃ s', apply_call c (impl o) = Some s'
          ∧ heap w' !! l = Some (with_state s' o).
Proof.
  revert w. induction ns as [|name0 ns IH];
    intros w Hnd Hinj Hns Hrun name l o Hin Hget Ho Hg.
  { by apply elem_of_nil in Hin. }
  apply NoDup_cons in Hnd as [Hfresh Hnd].
  destruct (Hns name0) as (l0 & Hl0 & [o0 Ho0]); [by left|].
  cbn [forEach] in Hrun. unfold bind at 1 in Hrun.
  rewrite (body_step w name0 l0 o0 Hl0 Ho0) in Hrun.
  assert (Hother : ∀ name', name' ∈ ns →
            JsObj.get (sources w) name' = Some l0 → False).
  { intros name' Hin' Hget'. apply Hfresh.
    assert (name0 = name') as ->; [|done].
    apply (Hinj name0 name' l0); [by left|by right|done|done]. }
  destruct (g l0 o0) eqn:Hg0.
  - destruct (g_callable l0 o0 Hg0) as [s0 Hs0].
    rewrite (invoke_Some l0 o0 c s0 w Ho0 Hs0) in Hrun.
    set (o1 := {| impl := s0; linkTarget := linkTarget o0 |}) in *.
    set (w1 := emit (Invoke l0 c) (set_heap (<[l0 := o1]> (heap w)) w)) in *.
    assert (Hns1 : ∀ name', name' ∈ ns →
              ∃ l', JsObj.get (sources w1) name' = Some l'
                    ∧ is_Some (heap w1 !! l')).
    { intros name' Hname'.
      destruct (Hns name') as (l' & Hl' & Hh'); [by right|].
      exists l'. split; [done|]. cbn.
      apply lookup_insert_is_Some'. by right. }
    apply elem_of_cons in Hin as [->|Hin].
    + assert (l = l0) as -> by congruence.
      assert (o = o0) as -> by congruence.
      exists s0. split; [done|].
      destruct (broadcast_run ns w1 Hns1)
        as (w'' & evs & Hrun' & _ & _ & _ & Hev & _ & Hn & _).
      rewrite Hrun in Hrun'. injection Hrun' as <-.
      rewrite (Hn l0).
      * cbn. by rewrite lookup_insert_eq.
      * intros (name' & l' & o' & Hin' & Hget' & _ & _ & [= <-])%Hev.
        by eapply Hother.
    + assert (l ≠ l0) as Hne by (intros ->; by eapply Hother).
      apply (IH w1 Hnd) with (name := name); try done.
      * intros n1 n2 l' Hn1 Hn2. apply Hinj; by right.
      * cbn. by rewrite lookup_insert_ne.
  - apply elem_of_cons in Hin as [->|Hin].
    + assert (l = l0) as -> by congruence.
      assert (o = o0) as -> by congruence. congruence.
    + apply (IH w Hnd) with (name := name); try done.
      * intros n1 n2 l' Hn1 Hn2. apply Hinj; by right.
      * intros name' Hname'. apply Hns. by right.
Qed.

End Broadcast.

(** [broadcast_once] over the names of a table of distinct sources. *)
Lemma distinct_sources_keys w :
  distinct_sources w →
  NoDup (JsObj.keys (sources w))
  ∧ ∀ n1 n2 l, n1 ∈ JsObj.keys (sources w) → n2 ∈ JsObj.keys (sources w) →
      JsObj.get (sources w) n1 = Some l → JsObj.get (sources w) n2 = Some l →
      n1 = n2.
Proof.
  intros [Hnd Hinj]. split; [by apply NoDup_keys|].
  intros n1 n2 l _ _. apply Hinj.
Qed.

(** C5. On a well-formed world [highlight] raises nothing, and what it
    sends out is [highlight(skeleton_id)] to the registered sources other
    than the caller: each of them gets the call, and nothing else is
    sent, so the caller never gets it.  The calls are made: every
    registered source other than the caller ends in a state that its
    [highlight] yields, the very state it yields from the one the source
    had when the sources of the table are distinct, while the caller
    stays as it was. *)
Theorem highlight_broadcast w (caller : loc) (skeleton_id : skid) :
  wf w →
  ∃ w' evs,
    highlight caller skeleton_id w = Return tt w'
    ∧ sources w' = sources w
    ∧ trace w' = trace w ++ evs
    ∧ (∀ e, e ∈ evs
            ↔ ∃ l, registered w l ∧ l ≠ caller
                   ∧ e = Invoke l (Highlight skeleton_id))
    ∧ (Invoke caller (Highlight skeleton_id) ∉ evs)
    ∧ (∀ l, registered w l → l ≠ caller →
            ∃ o' s, heap w' !! l = Some o'
                    ∧ impl o' = Source.highlight s skeleton_id)
    ∧ heap w' !! caller = heap w !! caller
    ∧ (distinct_sources w →
       ∀ l o, registered w l → l ≠ caller → heap w !! l = Some o →
              heap w' !! l
              = Some (with_state (Source.highlight (impl o) skeleton_id) o)).
Proof.
  intros Hwf. unfold highlight, bind at 1, gets.
  set (body := λ name, bind (source_at name) (λ source,
                 if decide (source = caller) then ret tt
                 else invoke source (Highlight skeleton_id))).
  assert (Hstep : ∀ w0 name l o,
    JsObj.get (sources w0) name = Some l → heap w0 !! l = Some o →
    body name w0 = if bool_decide (l ≠ caller)
                   then invoke l (Highlight skeleton_id) w0
                   else Return tt w0).
  { intros w0 name l o Hl Ho. unfold body.
    rewrite (bind_Return _ _ _ _ _ (source_at_Some _ _ _ Hl)).
    case_decide as Hc.
    - by rewrite bool_decide_eq_false_2 by naive_solver.
    - by rewrite bool_decide_eq_true_2. }
  assert (Hcall : ∀ l (o : object (PS:=PS)),
    bool_decide (l ≠ caller) = true →
    is_Some (apply_call (Highlight skeleton_id) (impl o))).
  { intros l o _. by eexists. }
  destruct (broadcast_run (λ l _, bool_decide (l ≠ caller))
              (Highlight skeleton_id) body Hstep Hcall
              (JsObj.keys (sources w)) w)
    as (w' & evs & Hrun & Hs & _ & Ht & Hev & Hc & Hn & _).
  { by apply wf_keys. }
  assert (Hev' : ∀ e, e ∈ evs
            ↔ ∃ l, registered w l ∧ l ≠ caller
                   ∧ e = Invoke l (Highlight skeleton_id)).
  { intros e. rewrite Hev. split.
    - intros (name & l & o & Hin & Hget & Ho & Hg & ->).
      apply bool_decide_eq_true_1 in Hg.
      exists l. split_and!; [by exists name|done|done].
    - intros (l & [name Hget] & Hne & ->).
      destruct (Hwf name l Hget) as [o Ho].
      exists name, l, o. split_and!; try done.
      + apply elem_of_keys. by eexists.
      + by apply bool_decide_eq_true_2. }
  assert (Hquiet : Invoke caller (Highlight skeleton_id) ∉ evs).
  { intros (l & _ & Hne & Heq)%Hev'. congruence. }
  exists w', evs. split_and!; try done.
  - intros l Hl Hne.
    destruct (Hc l) as (o' & s & Ho' & Hs'); [apply Hev'; by exists l|].
    exists o', s. split; [done|]. cbn in Hs'. congruence.
  - by apply Hn.
  - intros Hdist l o [name Hname] Hne Ho.
    destruct (distinct_sources_keys w Hdist) as [Hnd Hinj].
    destruct (broadcast_once (λ l _, bool_decide (l ≠ caller))
                (Highlight skeleton_id) body Hstep Hcall
                (JsObj.keys (sources w)) w w' Hnd Hinj (wf_keys w Hwf) Hrun
                name l o) as (s' & Hs' & Hl'); try done.
    + apply elem_of_keys. by eexists.
    + by apply bool_decide_eq_true_2.
    + cbn in Hs'. by injection Hs' as <-.
Qed.

(** What the loop of [removeSkeletons] sends out, and the state it
    leaves the sources in. *)
Lemma removeSkeletons_run w (skeleton_ids : list skid) :
  wf w →
  ∃ w' evs,
    removeSkeletons skeleton_ids w = Return tt w'
    ∧ sources w' = sources w
    ∧ trace w' = trace w ++ evs
    ∧ (∀ e, e ∈ evs
            ↔ ∃ l, registered w l
                   ∧ e = Invoke l (RemoveSkeletons skeleton_ids))
    ∧ (∀ l, registered w l →
            ∃ o' s, heap w' !! l = Some o'
                    ∧ impl o' = Source.removeSkeletons s skeleton_ids).
Proof.
  intros Hwf. unfold removeSkeletons, bind at 1, gets.
  destruct (broadcast_run (λ _ _, true) (RemoveSkeletons skeleton_ids)
              (λ name, bind (source_at name) (λ source,
                 invoke source (RemoveSkeletons skeleton_ids)))
              ) with (ns := JsObj.keys (sources w)) (w := w)
    as (w' & evs & Hrun & Hs & _ & Ht & Hev & Hc & _).
  { intros w0 name l o Hl Ho.
    by rewrite (bind_Return _ _ _ _ _ (source_at_Some _ _ _ Hl)). }
  { intros l o _. by eexists. }
  { by apply wf_keys. }
  assert (Hev' : ∀ e, e ∈ evs
            ↔ ∃ l, registered w l
                   ∧ e = Invoke l (RemoveSkeletons skeleton_ids)).
  { intros e. rewrite Hev. split.
    - intros (name & l & o & Hin & Hget & Ho & Hg & ->).
      exists l. split; [by exists name|done].
    - intros (l & [name Hget] & ->).
      destruct (Hwf name l Hget) as [o Ho].
      exists name, l, o. split_and!; try done.
      apply elem_of_keys. by eexists. }
  exists w', evs. split_and!; try done.
  intros l Hl.
  destruct (Hc l) as (o' & s & Ho' & Hs'); [apply Hev'; by exists l|].
  exists o', s. split; [done|]. cbn in Hs'. congruence.
Qed.

(** C4. On a well-formed world [removeSkeletons] raises nothing and
    sends [removeSkeletons(skeleton_ids)] to every registered source,
    with no source left out, and nothing else; when the sources honour
    the contract of that command, afterwards no registered source has
    any of the skeletons. *)
Theorem removeSkeletons_broadcast w (skeleton_ids : list skid) :
  wf w →
  ∃ w' evs,
    removeSkeletons skeleton_ids w = Return tt w'
    ∧ sources w' = sources w
    ∧ trace w' = trace w ++ evs
    ∧ (∀ e, e ∈ evs
            ↔ ∃ l, registered w l
                   ∧ e = Invoke l (RemoveSkeletons skeleton_ids))
    ∧ (honours_removal (PS:=PS) →
       ∀ l, registered w l →
            ∃ o', heap w' !! l = Some o'
                  ∧ ∀ id, id ∈ skeleton_ids →
                          Source.hasSkeleton (impl o') id = false).
Proof.
  intros Hwf.
  destruct (removeSkeletons_run w skeleton_ids Hwf)
    as (w' & evs & Hrun & Hs & Ht & Hev & Hpost).
  exists w', evs. split_and!; try done.
  intros Hcontract l Hl. destruct (Hpost l Hl) as (o' & s & Ho' & Himpl).
  exists o'. split; [done|]. intros id Hid. rewrite Himpl.
  by apply Hcontract.
Qed.

(** C8. On a well-formed world [setVisible] raises nothing, and what it
    sends out is [setVisible(skeleton_ids, visible)] to the registered
    sources that have the method: each of them gets the call, and
    nothing reaches a source without it.  The calls are made: every
    registered source that has the method ends in a state that a
    [setVisible] yields for these arguments, the very state its own
    yields from the one the source had when the sources of the table
    are distinct, while a source without the method stays as it was. *)
Theorem setVisible_broadcast w (skeleton_ids : list skid) (visible : bool) :
  wf w →
  ∃ w' evs,
    setVisible skeleton_ids visible w = Return tt w'
    ∧ sources w' = sources w
    ∧ trace w' = trace w ++ evs
    ∧ (∀ e, e ∈ evs
            ↔ ∃ l o, registered w l ∧ heap w !! l = Some o
                     ∧ can_setVisible o = true
                     ∧ e = Invoke l (SetVisible skeleton_ids visible))
    ∧ (∀ l o, registered w l → heap w !! l = Some o →
              can_setVisible o = true →
              ∃ o' s f, heap w' !! l = Some o'
                        ∧ Source.setVisible s = Some f
                        ∧ impl o' = f skeleton_ids visible)
    ∧ (∀ l o, heap w !! l = Some o → can_setVisible o = false →
              heap w' !! l = Some o)
    ∧ (distinct_sources w →
       ∀ l o f, registered w l → heap w !! l = Some o →
                Source.setVisible (impl o) = Some f →
                heap w' !! l
                = Some (with_state (f skeleton_ids visible) o)).
Proof.
  intros Hwf. unfold setVisible, bind at 1, gets.
  set (body := λ name, bind (source_at name) (λ source,
                 bind (deref source) (λ o,
                   if bool_decide (is_Some (Source.setVisible (impl o)))
                   then invoke source (SetVisible skeleton_ids visible)
                   else ret tt))).
  assert (Hstep : ∀ w0 name l o,
    JsObj.get (sources w0) name = Some l → heap w0 !! l = Some o →
    body name w0 = if can_setVisible o
                   then invoke l (SetVisible skeleton_ids visible) w0
                   else Return tt w0).
  { intros w0 name l o Hl Ho. unfold body.
    rewrite (bind_Return _ _ _ _ _ (source_at_Some _ _ _ Hl)).
    rewrite (bind_Return _ _ _ _ _ (deref_Some _ _ _ Ho)).
    unfold can_setVisible. by destruct (bool_decide _). }
  assert (Hcall : ∀ (l : loc) (o : object (PS:=PS)),
    can_setVisible o = true →
    is_Some (apply_call (SetVisible skeleton_ids visible) (impl o))).
  { intros l o [f Hf]%bool_decide_eq_true_1. cbn. rewrite Hf. by eexists. }
  destruct (broadcast_run (λ _ o, can_setVisible o)
              (SetVisible skeleton_ids visible) body Hstep Hcall
              (JsObj.keys (sources w)) w)
    as (w' & evs & Hrun & Hs & _ & Ht & Hev & Hc & Hn & _).
  { by apply wf_keys. }
  assert (Hev' : ∀ e, e ∈ evs
            ↔ ∃ l o, registered w l ∧ heap w !! l = Some o
                     ∧ can_setVisible o = true
                     ∧ e = Invoke l (SetVisible skeleton_ids visible)).
  { intros e. rewrite Hev. split.
    - intros (name & l & o & Hin & Hget & Ho & Hg & ->).
      exists l, o. split_and!; try done. by exists name.
    - intros (l & o & [name Hget] & Ho & Hg & ->).
      exists name, l, o. split_and!; try done.
      apply elem_of_keys. by eexists. }
  exists w', evs. split_and!; try done.
  - intros l o Hl Ho Hcan.
    destruct (Hc l) as (o' & s & Ho' & Hs'); [apply Hev'; by exists l, o|].
    cbn in Hs'. destruct (Source.setVisible s) as [f|] eqn:Hf; [|done].
    exists o', s, f. split_and!; [done|done|]. cbn in Hs'. congruence.
  - intros l o Ho Hcan. rewrite <- Ho. apply Hn.
    intros (l' & o' & _ & Ho' & Hcan' & [= <-])%Hev'. congruence.
  - intros Hdist l o f [name Hname] Ho Hf.
    destruct (distinct_sources_keys w Hdist) as [Hnd Hinj].
    destruct (broadcast_once (λ _ o, can_setVisible o)
                (SetVisible skeleton_ids visible) body Hstep Hcall
                (JsObj.keys (sources w)) w w' Hnd Hinj (wf_keys w Hwf) Hrun
                name l o) as (s' & Hs' & Hl'); try done.
    + apply elem_of_keys. by eexists.
    + unfold can_setVisible. apply bool_decide_eq_true_2. by eexists.
    + cbn in Hs'. rewrite Hf in Hs'. cbn in Hs'. by injection Hs' as <-.
Qed.


(** *** [updateGUI] and [remove] *)

Lemma updateGUI_inv w w' :
  updateGUI w = Return tt w' →
  heap w' = heap w ∧ sources w' = sources w ∧ trace w' = trace w.
Proof.
  unfold updateGUI.
  destruct (each _ _) as [doc [e|]]; [done|]. by intros [= <-].
Qed.

Lemma updateGUI_Throw_inv w e w' :
  updateGUI w = Throw e w' →
  heap w' = heap w ∧ sources w' = sources w ∧ trace w' = trace w.
Proof.
  unfold updateGUI.
  destruct (each _ _) as [doc [e'|]]; [|done]. by intros [= <- <-].
Qed.

Lemma unlink_inv p name w w' :
  unlink p name w = Return tt w' →
  ∃ l o, JsObj.get (sources w) name = Some l ∧ heap w !! l = Some o
         ∧ w' = if decide (linkTarget o = Some p)
                then set_heap (<[l := unlinked o]> (heap w)) w else w.
Proof.
  unfold unlink. intros (l & w1 & [-> Hl]%source_at_inv & Hrest)%bind_inv.
  apply bind_inv in Hrest as (o & w1 & [-> Ho]%deref_inv & Hrest).
  exists l, o. split_and!; try done.
  case_decide; unfold modify, ret in Hrest; by injection Hrest as <-.
Qed.

Lemma unlink_Some p name l o w :
  JsObj.get (sources w) name = Some l → heap w !! l = Some o →
  unlink p name w
  = Return tt (if decide (linkTarget o = Some p)
               then set_heap (<[l := unlinked o]> (heap w)) w else w).
Proof.
  intros Hl Ho. unfold unlink.
  rewrite (bind_Return _ _ _ _ _ (source_at_Some _ _ _ Hl)).
  rewrite (bind_Return _ _ _ _ _ (deref_Some _ _ _ Ho)).
  by case_decide.
Qed.

(** The scan of [remove], when it comes to its end: only the store
    changes, and there only the [linkTarget] of the sources scanned that
    pointed to [p]. *)
Lemma unlink_loop_inv p (ns : list string) w w' :
  forEach (unlink p) ns w = Return tt w' →
  sources w' = sources w ∧ document w' = document w ∧ trace w' = trace w
  ∧ (∀ l o, heap w !! l = Some o →
        heap w' !! l = Some o
        ∨ (heap w' !! l = Some (unlinked o) ∧ linkTarget o = Some p
           ∧ ∃ name, name ∈ ns ∧ JsObj.get (sources w) name = Some l))
  ∧ (∀ l, heap w !! l = None → heap w' !! l = None)
  ∧ (∀ name l, name ∈ ns → JsObj.get (sources w) name = Some l →
        ∃ o', heap w' !! l = Some o' ∧ linkTarget o' ≠ Some p).
Proof.
  revert w. induction ns as [|name ns IH]; intros w Hrun.
  { cbn in Hrun. injection Hrun as <-. split_and!; try done; [by left|].
    by intros ? ? ?%elem_of_nil. }
  cbn [forEach] in Hrun.
  apply bind_inv in Hrun as ([] & w1 & Hstep & Hrun).
  apply unlink_inv in Hstep as (l0 & o0 & Hl0 & Ho0 & Hw1).
  destruct (IH w1 Hrun) as (Hs & Hd & Ht & Hheap & Hnone & Hscan).
  assert (sources w1 = sources w ∧ document w1 = document w
          ∧ trace w1 = trace w) as (Hs1 & Hd1 & Ht1).
  { rewrite Hw1. by case_decide. }
  assert (Hstep : ∀ l o, heap w !! l = Some o →
            heap w1 !! l = Some o
            ∨ (heap w1 !! l = Some (unlinked o) ∧ linkTarget o = Some p
               ∧ l = l0)).
  { intros l o Hl. rewrite Hw1. case_decide as Hp; [|by left]. cbn.
    destruct (decide (l = l0)) as [->|Hne].
    - right. rewrite lookup_insert_eq. split_and!; congruence.
    - left. by rewrite lookup_insert_ne. }
  split_and!; try congruence.
  - intros l o Hl. destruct (Hstep l o Hl) as [Hl1|(Hl1 & Hp & ->)].
    + destruct (Hheap l o Hl1) as [?|(? & ? & name' & Hin & Hget)];
        [by left|right].
      split_and!; try done. exists name'. split; [by right|congruence].
    + right. destruct (Hheap l0 _ Hl1) as [?|(_ & ? & _)]; [|done].
      split_and!; try done. exists name. split; [by left|done].
  - intros l Hl. apply Hnone. rewrite Hw1. case_decide; [|done]. cbn.
    rewrite lookup_insert_ne; [done|]. intros ->. congruence.
  - intros name' l [->|Hin]%elem_of_cons Hget.
    + assert (l = l0) as -> by congruence.
      assert (∃ o1, heap w1 !! l0 = Some o1 ∧ linkTarget o1 ≠ Some p)
        as (o1 & Ho1 & Hp1).
      { rewrite Hw1. case_decide as Hp.
        - exists (unlinked o0). cbn. by rewrite lookup_insert_eq.
        - by exists o0. }
      destruct (Hheap l0 o1 Ho1) as [?|(_ & ? & _)]; [|done].
      by exists o1.
    + apply (Hscan name' l Hin). congruence.
Qed.

Lemma unlink_loop_returns p (ns : list string) w :
  (∀ name, name ∈ ns →
     ∃ l, JsObj.get (sources w) name = Some l ∧ is_Some (heap w !! l)) →
  ∃ w', forEach (unlink p) ns w = Return tt w'.
Proof.
  revert w. induction ns as [|name ns IH]; intros w Hns; [by eexists|].
  destruct (Hns name) as (l & Hl & [o Ho]); [by left|].
  cbn [forEach]. rewrite (bind_Return _ _ _ _ _ (unlink_Some p _ _ _ _ Hl Ho)).
  apply IH. intros name' Hin.
  destruct (Hns name') as (l' & Hl' & Ho'); [by right|].
  exists l'. case_decide; [|done]. split; [done|]. cbn.
  apply lookup_insert_is_Some'. by right.
Qed.

(** [remove] step by step, when it comes to its end. *)
Lemma remove_inv p w w' :
  remove p w = Return tt w' →
  ∃ o w1,
    heap w !! p = Some o
    ∧ updateGUI (set_sources
                   (JsObj.delete (sources w) (Source.getName (impl o))) w)
      = Return tt w1
    ∧ forEach (unlink p) (JsObj.keys (sources w1)) w1 = Return tt w'.
Proof.
  unfold remove. intros (name & w0 & Hname & Hrest)%bind_inv.
  unfold call_getName in Hname.
  apply bind_inv in Hname as (o & w0' & [-> Ho]%deref_inv & [= <- <-]).
  apply bind_inv in Hrest as ([] & w1 & [= <-] & Hrest).
  apply bind_inv in Hrest as ([] & w2 & Hgui & Hrest).
  by exists o, w2.
Qed.

(** The scan of [remove] does its work when [remove] gets to it: when
    [remove(p)] returns, every source registered afterwards is an object
    whose [linkTarget] is not [p]; one whose [linkTarget] was [p] before
    the call has no [linkTarget] any more. *)
Lemma remove_clears_links w p w' :
  remove p w = Return tt w' →
  (∀ q, registered w' q →
        ∃ oq', heap w' !! q = Some oq' ∧ linkTarget oq' ≠ Some p)
  ∧ (∀ q oq, registered w' q → heap w !! q = Some oq →
             linkTarget oq = Some p →
             ∃ oq', heap w' !! q = Some oq' ∧ linkTarget oq' = None).
Proof.
  intros (o & w1 & Ho & Hgui & Hscan)%remove_inv.
  apply updateGUI_inv in Hgui as (Hh1 & Hs1 & Ht1).
  apply unlink_loop_inv in Hscan as (Hs & _ & _ & Hheap & _ & Hscan).
  assert (Hreg : ∀ q, registered w' q →
            ∃ oq', heap w' !! q = Some oq' ∧ linkTarget oq' ≠ Some p).
  { intros q [name Hq]. rewrite Hs in Hq.
    apply (Hscan name q); [|done]. apply elem_of_keys. by eexists. }
  split; [done|]. intros q oq Hq Hoq Hp.
  destruct (Hreg q Hq) as (oq' & Hoq' & Hp').
  exists oq'. split; [done|].
  rewrite Hh1 in Hheap. cbn in Hheap.
  destruct (Hheap q oq Hoq) as [?|(? & _)]; [congruence|].
  assert (oq' = unlinked oq) as -> by congruence. done.
Qed.

(** [remove] comes to its end on a well-formed world as soon as
    [updateGUI] does. *)
Lemma remove_returns w p o w1 :
  wf w → heap w !! p = Some o →
  updateGUI (set_sources
               (JsObj.delete (sources w) (Source.getName (impl o))) w)
  = Return tt w1 →
  ∃ w', remove p w = Return tt w'
        ∧ forEach (unlink p) (JsObj.keys (sources w1)) w1 = Return tt w'.
Proof.
  intros Hwf Ho Hgui.
  destruct (unlink_loop_returns p (JsObj.keys (sources w1)) w1) as [w' Hw'].
  { apply updateGUI_inv in Hgui as (Hh & Hs & _).
    intros name [l Hl]%elem_of_keys. exists l. split; [done|].
    rewrite Hh, Hs in *. cbn in *. apply (Hwf name).
    rewrite get_delete in Hl. by case_decide. }
  exists w'. split; [|done]. unfold remove.
  rewrite (bind_Return _ _ _ _ _ (call_getName_Some _ _ _ Ho)).
  unfold bind at 1, modify. rewrite (bind_Return _ _ _ _ _ Hgui).
  by unfold bind at 1, gets.
Qed.

(** When [updateGUI] raises, [remove] ends there: the entry is gone and
    the links are left as they were. *)
Lemma remove_throws w p o e w1 :
  heap w !! p = Some o →
  updateGUI (set_sources
               (JsObj.delete (sources w) (Source.getName (impl o))) w)
  = Throw e w1 →
  remove p w = Throw e w1.
Proof.
  intros Ho Hgui. unfold remove.
  rewrite (bind_Return _ _ _ _ _ (call_getName_Some _ _ _ Ho)).
  unfold bind at 1, modify. by rewrite (bind_Throw _ _ _ _ _ Hgui).
Qed.


Lemma set_sources_id w : set_sources (sources w) w = w.
Proof. by destruct w. Qed.

(** C7, amended. Let [p] be a source under whose name nothing is
    registered.  When [updateGUI] raises on the current world,
    [remove(p)] raises the same way; otherwise [remove(p)] returns, with
    [this.sources] as it was, nothing sent out, the document as
    [updateGUI] rebuilds it, the sources whose [linkTarget] is not [p]
    as they were, and the registered sources whose [linkTarget] was [p]
    without it. *)
Theorem remove_unregistered_name w p o :
  wf w → heap w !! p = Some o →
  JsObj.get (sources w) (Source.getName (impl o)) = None →
  match updateGUI w with
  | Throw e w1 => remove p w = Throw e w1
  | Return _ w1 =>
      ∃ w', remove p w = Return tt w'
            ∧ sources w' = sources w ∧ trace w' = trace w
            ∧ document w' = document w1
            ∧ (∀ l ol, heap w !! l = Some ol → linkTarget ol ≠ Some p →
                       heap w' !! l = Some ol)
            ∧ (∀ l ol, registered w l → heap w !! l = Some ol →
                       linkTarget ol = Some p →
                       heap w' !! l = Some (unlinked ol))
            ∧ (∀ l, heap w !! l = None → heap w' !! l = None)
  end.
Proof.
  intros Hwf Ho Hname.
  assert (set_sources
            (JsObj.delete (sources w) (Source.getName (impl o))) w = w)
    as Hw by (rewrite delete_absent by done; apply set_sources_id).
  destruct (updateGUI w) as [[] w1|e w1] eqn:Hgui.
  - rewrite <- Hw in Hgui.
    destruct (remove_returns w p o w1 Hwf Ho Hgui) as (w' & Hrun & Hscan).
    rewrite Hw in Hgui. apply updateGUI_inv in Hgui as (Hh1 & Hs1 & Ht1).
    apply unlink_loop_inv in Hscan
      as (Hs & Hd & Ht & Hheap & Hnone & Hscan).
    rewrite Hh1 in Hheap, Hnone.
    exists w'. split_and!; try congruence.
    + intros l ol Hl Hp. by destruct (Hheap l ol Hl) as [?|(_ & ? & _)].
    + intros l ol [name Hreg] Hl Hp.
      destruct (Hscan name l) as (o' & Ho' & Hp').
      { apply elem_of_keys. rewrite Hs1. by eexists. }
      { by rewrite Hs1. }
      destruct (Hheap l ol Hl) as [?|(? & _)]; [congruence|done].
    + exact Hnone.
  - rewrite <- Hw in Hgui. by apply (remove_throws w p o).
Qed.

(** *** Resolving the selected source *)

Lemma createSelectID_Some r o w :
  heap w !! r = Some o →
  createSelectID r w = Return (select_id_of (Source.getName (impl o))) w.
Proof.
  intros Hr. unfold createSelectID.
  by rewrite (bind_Return _ _ _ _ _ (call_getName_Some _ _ _ Hr)).
Qed.

(** What [read] gives for the own properties and, on a table with the
    prototype it was made with, for the other names. *)
Lemma read_own key l w :
  JsObj.get (sources w) key = Some l → read key w = Ref l.
Proof. unfold read. by intros ->. Qed.

Lemma read_plain key w :
  proto w = None →
  read key w = match JsObj.get (sources w) key with
               | Some l => Ref l
               | None => if JsObj.inherited key then Builtin key
                         else Undefined
               end.
Proof. unfold read. by intros ->. Qed.

Lemma read_Ref_plain key l w :
  proto w = None → read key w = Ref l → JsObj.get (sources w) key = Some l.
Proof.
  intros Hp. rewrite (read_plain _ _ Hp).
  destruct (JsObj.get _ _); [congruence|]. by destruct (JsObj.inherited _).
Qed.

Lemma getSelectedSource_Some r o w :
  heap w !! r = Some o →
  getSelectedSource r w
  = Return (read (selected_key w (Source.getName (impl o))) w) w.
Proof.
  intros Hr. unfold getSelectedSource.
  by rewrite (bind_Return _ _ _ _ _ (createSelectID_Some _ _ _ Hr)).
Qed.

(** No source resolves: both functions log to the console and return an
    empty array. *)
Lemma getSelectedSkeletons_miss r o w :
  heap w !! r = Some o →
  read (selected_key w (Source.getName (impl o))) w = Undefined →
  getSelectedSkeletons r w
  = Return [] (emit (ConsoleLog ("No source found for reference source "
                                 +:+ Source.getName (impl o))) w).
Proof.
  intros Hr Hmiss. unfold getSelectedSkeletons.
  rewrite (bind_Return _ _ _ _ _ (getSelectedSource_Some _ _ _ Hr)), Hmiss.
  by rewrite (bind_Return _ _ _ _ _ (call_getName_Some _ _ _ Hr)).
Qed.

Lemma getSelectedSkeletonModels_miss r o w :
  heap w !! r = Some o →
  read (selected_key w (Source.getName (impl o))) w = Undefined →
  getSelectedSkeletonModels r w
  = Return (ArrayOf []) (emit (ConsoleLog
               ("No source found for reference source "
                +:+ Source.getName (impl o))) w).
Proof.
  intros Hr Hmiss. unfold getSelectedSkeletonModels.
  rewrite (bind_Return _ _ _ _ _ (getSelectedSource_Some _ _ _ Hr)), Hmiss.
  by rewrite (bind_Return _ _ _ _ _ (call_getName_Some _ _ _ Hr)).
Qed.

(** What is selected is a name [Object.prototype] has: both functions
    raise on the method call. *)
Lemma getSelectedSkeletons_builtin r o n w :
  heap w !! r = Some o →
  read (selected_key w (Source.getName (impl o))) w = Builtin n →
  getSelectedSkeletons r w = Throw TypeError w.
Proof.
  intros Hr Hb. unfold getSelectedSkeletons.
  by rewrite (bind_Return _ _ _ _ _ (getSelectedSource_Some _ _ _ Hr)), Hb.
Qed.

Lemma getSelectedSkeletonModels_builtin r o n w :
  heap w !! r = Some o →
  read (selected_key w (Source.getName (impl o))) w = Builtin n →
  getSelectedSkeletonModels r w = Throw TypeError w.
Proof.
  intros Hr Hb. unfold getSelectedSkeletonModels.
  by rewrite (bind_Return _ _ _ _ _ (getSelectedSource_Some _ _ _ Hr)), Hb.
Qed.

(** A source resolves: [getSelectedSkeletons] returns what it has
    selected, with an alert when that is nothing. *)
Lemma getSelectedSkeletons_resolved r o s os w :
  heap w !! r = Some o →
  read (selected_key w (Source.getName (impl o))) w = Ref s →
  heap w !! s = Some os →
  getSelectedSkeletons r w
  = Return (Source.getSelectedSkeletons (impl os))
      (if decide (Source.getSelectedSkeletons (impl os) = [])
       then emit (GrowlAlert "Info" ("No skeletons available at "
                                     +:+ Source.getName (impl os))) w
       else w).
Proof.
  intros Hr Hsel Hs. unfold getSelectedSkeletons.
  rewrite (bind_Return _ _ _ _ _ (getSelectedSource_Some _ _ _ Hr)), Hsel.
  rewrite (bind_Return _ _ _ _ _ (deref_Some _ _ _ Hs)).
  destruct (Source.getSelectedSkeletons (impl os)) as [|id ids] eqn:Hids.
  - cbn [List.length Z.of_nat]. rewrite !decide_True by done.
    unfold bind at 1.
    by rewrite (bind_Return _ _ _ _ _ (call_getName_Some _ _ _ Hs)).
  - rewrite decide_False by (cbn [List.length]; lia).
    by rewrite decide_False.
Qed.

(** A source resolves and has no skeleton selected:
    [getSelectedSkeletons] raises an alert and returns the empty array. *)
Lemma getSelectedSkeletons_empty r o s os w :
  heap w !! r = Some o →
  JsObj.get (sources w) (selected_key w (Source.getName (impl o))) = Some s →
  heap w !! s = Some os →
  Source.getSelectedSkeletons (impl os) = [] →
  getSelectedSkeletons r w
  = Return [] (emit (GrowlAlert "Info" ("No skeletons available at "
                                        +:+ Source.getName (impl os))) w).
Proof.
  intros Hr Hsel%read_own Hs Hempty.
  rewrite (getSelectedSkeletons_resolved r o s os w Hr Hsel Hs), Hempty.
  by rewrite decide_True.
Qed.

(** A source resolves: [getSelectedSkeletonModels] returns its models,
    with an alert exactly when the models object has a property [length]
    that is the number zero. *)
Lemma getSelectedSkeletonModels_resolved r o s os w :
  heap w !! r = Some o →
  read (selected_key w (Source.getName (impl o))) w = Ref s →
  heap w !! s = Some os →
  getSelectedSkeletonModels r w
  = Return (ObjectOf (Source.getSelectedSkeletonModels (impl os)))
      (if length_is_zero (Source.getSelectedSkeletonModels (impl os))
       then emit (GrowlAlert "Info" ("No skeletons selected at "
                                     +:+ Source.getName (impl os))) w
       else w).
Proof.
  intros Hr Hsel Hs. unfold getSelectedSkeletonModels.
  rewrite (bind_Return _ _ _ _ _ (getSelectedSource_Some _ _ _ Hr)), Hsel.
  rewrite (bind_Return _ _ _ _ _ (deref_Some _ _ _ Hs)).
  destruct (length_is_zero _); [|done]. unfold bind at 1.
  by rewrite (bind_Return _ _ _ _ _ (call_getName_Some _ _ _ Hs)).
Qed.

(** In particular nothing is signalled for a source with no model. *)
Lemma getSelectedSkeletonModels_empty_silent r o s os w :
  heap w !! r = Some o →
  JsObj.get (sources w) (selected_key w (Source.getName (impl o))) = Some s →
  heap w !! s = Some os →
  Source.getSelectedSkeletonModels (impl os) = JsObj.empty →
  getSelectedSkeletonModels r w = Return (ObjectOf JsObj.empty) w.
Proof.
  intros Hr Hsel%read_own Hs Hempty.
  rewrite (getSelectedSkeletonModels_resolved r o s os w Hr Hsel Hs).
  by rewrite Hempty.
Qed.


End ManagerFacts.

(** ** The ids of the selects *)
Section SelectIds.
Implicit Types (s pat name e : string) (c d : ascii).

Lemma substring_length_le (n m : nat) s :
  (String.length (String.substring n m s) ≤ m)%nat.
Proof.
  revert n m. induction s as [|x s IH]; intros [|n] [|m]; cbn; try lia.
  - specialize (IH 0%nat m). lia.
  - apply IH.
  - apply IH.
Qed.

Lemma substring_0_all s : String.substring 0 (String.length s) s = s.
Proof. induction s as [|x s IH]; cbn; [done|]. by rewrite IH. Qed.

Lemma replace_length c d s :
  String.length (JsString.replace c d s) = String.length s.
Proof. induction s as [|x s IH]; cbn; [done|]. by rewrite IH. Qed.

Lemma prefix_length pat s :
  String.prefix pat s = true → (String.length pat ≤ String.length s)%nat.
Proof.
  revert s. induction pat as [|x pat IH]; intros [|y s]; cbn;
    try (intros; lia); try done.
  destruct (ascii_dec x y); [|done]. intros ?%IH. lia.
Qed.

(** Where [indexOf] finds a pattern, the pattern fits. *)
Lemma indexOf_from_bounds pat s (i : Z) :
  0 ≤ i →
  JsString.indexOf_from pat s i = -1
  ∨ (i ≤ JsString.indexOf_from pat s i
     ∧ JsString.indexOf_from pat s i + JsString.length pat
       ≤ i + JsString.length s).
Proof.
  revert i. unfold JsString.length.
  induction s as [|x s IH]; intros i Hi; cbn [JsString.indexOf_from].
  - destruct (String.prefix pat "") eqn:Hp; [|by left].
    right. apply prefix_length in Hp. lia.
  - destruct (String.prefix pat (String x s)) eqn:Hp.
    + right. apply prefix_length in Hp. lia.
    + destruct (IH (i + 1)) as [?|?]; [lia|by left|right].
      cbn [String.length]. lia.
Qed.

(** Spaces to hyphens and back gives the name again exactly when the
    name has no hyphen. *)
Lemma replace_round_trip name :
  JsString.replace "-" " " (JsString.replace " " "-" name) = name
  ↔ JsString.contains_char "-" name = false.
Proof.
  induction name as [|x name IH]; cbn; [done|].
  rewrite orb_false_iff, <- IH. clear IH.
  destruct (decide (x = "-"%char)) as [->|Hh].
  - cbn. split; [by intros [=]|by intros [? _]].
  - rewrite (bool_decide_eq_false_2 (x = "-"%char)) by done.
    destruct (decide (x = " "%char)) as [->|Hs].
    + cbn. split; [by intros [= ?]|by intros [_ ->]].
    + rewrite (bool_decide_eq_false_2 (x = " "%char)) by done.
      rewrite (bool_decide_eq_false_2 (x = "-"%char)) by done.
      split; [by intros [= ?]|by intros [_ ->]].
Qed.

(** The search for [-push-] in an id gets through the prefix up to its
    last hyphen. *)
Lemma indexOf_push_id e :
  JsString.indexOf (select_prefix +:+ e) "-push-"
  = JsString.indexOf_from "-push-" (String "-" e) 22.
Proof. reflexivity. Qed.

Lemma substring_from_id e : JsString.substring_from (select_prefix +:+ e) 23 = e.
Proof.
  unfold JsString.substring_from, JsString.substring, JsString.clamp,
    JsString.length.
  assert (String.length (select_prefix +:+ e) = 23 + String.length e)%nat
    as -> by done.
  replace (Z.to_nat (Z.min (Z.max 23 0) (Z.of_nat (23 + String.length e))))
    with 23%nat by lia.
  replace (Z.to_nat (Z.min (Z.max (Z.of_nat (23 + String.length e)) 0)
                       (Z.of_nat (23 + String.length e))))
    with (23 + String.length e)%nat by lia.
  replace (Nat.min 23 (23 + String.length e)) with 23%nat by lia.
  replace (Nat.max 23 (23 + String.length e) - 23)%nat
    with (String.length e) by lia.
  change (String.substring 23 (String.length e) (select_prefix +:+ e))
    with (String.substring 0 (String.length e) e).
  apply substring_0_all.
Qed.

(** What is read back when the id holds [-push-] is shorter than the
    name. *)
Lemma select_name_push_short name :
  JsString.indexOf (select_id_of name) "-push-" ≠ -1 →
  (String.length (select_name (select_id_of name)) < String.length name)%nat.
Proof.
  unfold select_name, select_id_of.
  set (e := JsString.replace " " "-" name).
  set (ipush := JsString.indexOf (select_prefix +:+ e) "-push-").
  intros Hpush. rewrite decide_False by congruence.
  rewrite replace_length.
  assert (22 ≤ ipush ∧ ipush + 6 ≤ 23 + Z.of_nat (String.length name))
    as [Hlo Hhi].
  { unfold ipush in *. rewrite indexOf_push_id in *.
    destruct (indexOf_from_bounds "-push-" (String "-" e) 22) as [?|[? Hb]];
      [lia|done|].
    split; [done|]. unfold JsString.length in Hb. cbn [String.length] in Hb.
    unfold e in Hb |- *. rewrite replace_length in Hb. lia. }
  unfold JsString.substring.
  pose proof (substring_length_le
    (Nat.min (JsString.clamp (select_prefix +:+ e) 23)
             (JsString.clamp (select_prefix +:+ e) ipush))
    (Nat.max (JsString.clamp (select_prefix +:+ e) 23)
             (JsString.clamp (select_prefix +:+ e) ipush)
     - Nat.min (JsString.clamp (select_prefix +:+ e) 23)
               (JsString.clamp (select_prefix +:+ e) ipush))
    (select_prefix +:+ e)) as Hle.
  assert (JsString.length (select_prefix +:+ e)
          = 23 + Z.of_nat (String.length name)) as Hlen.
  { unfold JsString.length.
    assert (String.length (select_prefix +:+ e) = 23 + String.length e)%nat
      as -> by done.
    unfold e. rewrite replace_length. lia. }
  unfold JsString.clamp in *. rewrite Hlen in *. lia.
Qed.

(** Identifiers made from hyphen-free text hold a hyphen-free pattern
    where the text holds it. *)
Lemma prefix_replace pat s :
  JsString.contains_char "-" pat = false →
  JsString.contains_char "-" s = false →
  String.prefix (JsString.replace " " "-" pat) (JsString.replace " " "-" s)
  = String.prefix pat s.
Proof.
  revert s. induction pat as [|x pat IH]; intros [|y s]; cbn; try done.
  intros [Hx Hpat]%orb_false_iff [Hy Hs]%orb_false_iff.
  apply bool_decide_eq_false_1 in Hx, Hy.
  rewrite <- (IH s Hpat Hs).
  destruct (ascii_dec x y) as [->|Hne].
  - by destruct (ascii_dec _ _).
  - destruct (ascii_dec _ _) as [Heq|?]; [|done].
    repeat case_bool_decide; congruence.
Qed.

Lemma indexOf_from_replace pat s (i : Z) :
  JsString.contains_char "-" pat = false →
  JsString.contains_char "-" s = false →
  JsString.indexOf_from (JsString.replace " " "-" pat)
    (JsString.replace " " "-" s) i
  = JsString.indexOf_from pat s i.
Proof.
  intros Hpat. revert i. induction s as [|y s IH]; intros i Hs.
  - by destruct pat.
  - cbn [JsString.indexOf_from JsString.replace].
    change (String (if bool_decide (y = " "%char) then "-"%char else y)
              (JsString.replace " " "-" s))
      with (JsString.replace " " "-" (String y s)).
    rewrite prefix_replace by done.
    destruct (String.prefix pat (String y s)); [done|]. apply IH.
    cbn in Hs. by apply orb_false_iff in Hs as [_ ?].
Qed.

Lemma indexOf_from_none pat s (i j : Z) :
  0 ≤ i → 0 ≤ j →
  JsString.indexOf_from pat s i = -1 → JsString.indexOf_from pat s j = -1.
Proof.
  revert i j. induction s as [|y s IH]; intros i j Hi Hj;
    cbn [JsString.indexOf_from].
  - destruct (String.prefix pat ""); [lia|done].
  - destruct (String.prefix pat (String y s)); [lia|].
    apply IH; lia.
Qed.

(** The id made from a hyphen-free name holds [-push-] exactly when the
    name, with a space put before it, holds the word [push] between
    spaces. *)
Lemma id_push_name name :
  JsString.contains_char "-" name = false →
  JsString.indexOf (select_id_of name) "-push-" = -1
  ↔ JsString.indexOf (String " " name) " push " = -1.
Proof.
  intros Hname. unfold select_id_of. rewrite indexOf_push_id.
  change (String "-" (JsString.replace " " "-" name))
    with (JsString.replace " " "-" (String " " name)).
  change "-push-" with (JsString.replace " " "-" " push ").
  rewrite indexOf_from_replace by done.
  unfold JsString.indexOf. split; apply indexOf_from_none; lia.
Qed.

(** The round trip in terms of the id. *)
Lemma round_trip_by_id name :
  select_name (select_id_of name) = name
  ↔ JsString.contains_char "-" name = false
    ∧ JsString.indexOf (select_id_of name) "-push-" = -1.
Proof.
  destruct (decide (JsString.indexOf (select_id_of name) "-push-" = -1))
    as [Hpush|Hpush].
  - unfold select_name. rewrite decide_True by done.
    unfold select_id_of. rewrite substring_from_id, replace_round_trip.
    split; [by split|by intros [? _]].
  - split; [|by intros [_ ?]]. intros Heq.
    apply select_name_push_short in Hpush. rewrite Heq in Hpush. lia.
Qed.

(** C10, amended. Reading back the id made from a name gives the name
    again exactly when the name has no hyphen and, with a space put
    before it, does not hold the word [push] between spaces (it does not
    start with [push ] and [ push ] is not in it). *)
Theorem select_name_round_trip name :
  select_name (select_id_of name) = name
  ↔ JsString.contains_char "-" name = false
    ∧ JsString.indexOf (String " " name) " push " = -1.
Proof.
  rewrite round_trip_by_id. split.
  - intros [Hh Hp]. split; [done|]. by apply id_push_name.
  - intros [Hh Hp]. split; [done|]. by apply id_push_name.
Qed.

End SelectIds.

(** ** The lists of options *)
Section Options.
Context {Model PS : Type} `{!JsValue Model} `{!Source.t Model PS}.
Implicit Types (w : world (PS:=PS)) (sel : Dom.select) (opts : list Dom.opt).

Lemma options_of_values (srcs : JsObj.t loc) :
  Dom.value <$> options_of srcs = merge_sort String.le (JsObj.keys srcs).
Proof.
  unfold options_of. rewrite <- list_fmap_compose. apply list_fmap_id.
Qed.

(** [createOptions] gives one option per name of [this.sources], text
    and value both the name, in the order of the names as strings. *)
Lemma createOptions_sorted w :
  ∃ opts, createOptions w = Return opts w
          ∧ Sorted String.le (Dom.value <$> opts)
          ∧ Dom.value <$> opts ≡ₚ JsObj.keys (sources w)
          ∧ ∀ o, o ∈ opts → Dom.textContent o = Dom.value o.
Proof.
  exists (options_of (sources w)). split_and!; [done| | |].
  - rewrite options_of_values. apply Sorted_merge_sort, _.
  - rewrite options_of_values. apply merge_sort_Permutation.
  - unfold options_of. by intros o (name & -> & _)%list_elem_of_fmap.
Qed.

Lemma offer_options name selected sel o :
  Dom.options (offer name selected sel o)
  = Dom.options sel ++ filter (λ o, Dom.value o ≠ name) [o].
Proof.
  unfold offer. rewrite filter_cons, filter_nil.
  destruct (decide (Dom.value o = name)) as [Heq|Hne].
  - rewrite decide_False by (by intros Hc; apply Hc). by rewrite app_nil_r.
  - destruct (decide (Dom.value o ≠ name)); [|done]. by case_decide.
Qed.

Lemma offer_id name selected sel o :
  Dom.id (offer name selected sel o) = Dom.id sel.
Proof. unfold offer. by repeat case_decide. Qed.

Lemma fold_offer_options name selected opts sel :
  Dom.options (fold_left (offer name selected) opts sel)
  = Dom.options sel ++ filter (λ o, Dom.value o ≠ name) opts.
Proof.
  revert sel. induction opts as [|o opts IH]; intros sel; cbn.
  - by rewrite app_nil_r.
  - rewrite IH, offer_options, <- app_assoc. f_equal.
    rewrite filter_cons, filter_nil. by case_decide.
Qed.

(** What [updateGUI] leaves in a selectect: the first entry when it is the
    [None] entry of a push select, then the options whose value is not
    the name read back from the id. *)
Lemma rebuild_options opts sel sel' :
  rebuild opts sel = inr sel' →
  ∃ o0, Dom.item (Dom.options sel) 0 = Some o0
    ∧ Dom.options sel'
      = (if decide (Dom.value o0 = "None") then [o0] else [])
        ++ filter (λ o, Dom.value o ≠ select_name (Dom.id sel)) opts.
Proof.
  unfold rebuild. destruct (Dom.item _ _) as [o|]; [|done].
  destruct (Dom.item (Dom.options sel) 0) as [o0|] eqn:H0; [|done].
  intros [= <-]. exists o0. split; [done|].
  rewrite fold_offer_options. f_equal. cbn.
  unfold Dom.item in H0. cbn in H0.
  destruct (Dom.options sel) as [|o1 l]; [done|].
  injection H0 as ->. by case_decide.
Qed.

Lemma fold_list_option name (l : list (Z * Dom.opt)) sel :
  Dom.options (fold_left (list_option name) l sel)
  = Dom.options sel ++ filter (λ o, Dom.value o ≠ name) l.*2
  ∧ Dom.id (fold_left (list_option name) l sel) = Dom.id sel.
Proof.
  revert sel. induction l as [|[i o] l IH]; intros sel; cbn [fold_left].
  - cbn. by rewrite app_nil_r.
  - destruct (IH (list_option name sel (i, o))) as [-> ->].
    rewrite fmap_cons, filter_cons. unfold list_option.
    repeat case_decide; cbn; try done; by rewrite <- ?app_assoc.
Qed.

Lemma indexed_values {A : Type} (l : list A) : (indexed l).*2 = l.
Proof.
  unfold indexed. rewrite fmap_imap.
  induction l as [|x l IH]; [done|].
  cbn. f_equal. by rewrite <- IH at 2.
Qed.

(** The select [createSelect] makes for a source lists the names of
    [this.sources] other than the name of the source, sorted. *)
Lemma createSelect_options w p o :
  heap w !! p = Some o →
  ∃ sel, createSelect p w = Return sel w
         ∧ Dom.id sel = select_id_of (Source.getName (impl o))
         ∧ Dom.options sel
           = filter (λ x, Dom.value x ≠ Source.getName (impl o))
               (options_of (sources w)).
Proof.
  intros Hp. eexists. split.
  - unfold createSelect.
    rewrite (bind_Return _ _ _ _ _ (createSelectID_Some _ _ _ Hp)).
    rewrite (bind_Return _ _ _ _ _ (call_getName_Some _ _ _ Hp)).
    unfold bind, createOptions, gets, ret. reflexivity.
  - destruct (fold_list_option (Source.getName (impl o))
                (indexed (options_of (sources w)))
                (Dom.create (select_id_of (Source.getName (impl o)))))
      as [-> ->].
    by rewrite indexed_values.
Qed.

Lemma fold_list_push_option name opts sel :
  Dom.options (fold_left (list_push_option name) opts sel)
  = Dom.options sel ++ filter (λ o, Dom.value o ≠ name) opts
  ∧ Dom.id (fold_left (list_push_option name) opts sel) = Dom.id sel.
Proof.
  revert sel. induction opts as [|o opts IH]; intros sel; cbn [fold_left].
  - cbn. by rewrite app_nil_r.
  - destruct (IH (list_push_option name sel o)) as [-> ->].
    rewrite filter_cons. unfold list_push_option.
    repeat case_decide; cbn; try done; by rewrite <- ?app_assoc.
Qed.

(** The push select [createPushSelect] makes has the [None] entry first
    and then the same names. *)
Lemma createPushSelect_options w p o (suffix : string) :
  heap w !! p = Some o →
  ∃ sel, createPushSelect p suffix w = Return sel w
         ∧ Dom.id sel
           = select_id_of (Source.getName (impl o)) +:+ "-push-" +:+ suffix
         ∧ Dom.options sel
           = Dom.Option "None" "None"
             :: filter (λ x, Dom.value x ≠ Source.getName (impl o))
                  (options_of (sources w)).
Proof.
  intros Hp. eexists. split.
  - unfold createPushSelect.
    rewrite (bind_Return _ _ _ _ _ (createSelectID_Some _ _ _ Hp)).
    rewrite (bind_Return _ _ _ _ _ (call_getName_Some _ _ _ Hp)).
    unfold bind, createOptions, gets, ret. reflexivity.
  - by destruct (fold_list_push_option (Source.getName (impl o))
                (options_of (sources w))
                (Dom.options_add (Dom.Option "None" "None")
                   (Dom.create (select_id_of (Source.getName (impl o))
                                +:+ "-push-" +:+ suffix))))
      as [-> ->].
Qed.

(** When the name of a source comes back from the id of its select,
    [updateGUI] leaves no option with that name in it.  ([None] is the
    value of the first entry of a push select.) *)
Lemma rebuild_excludes_self name opts sel sel' :
  select_name (Dom.id sel) = name → name ≠ "None" →
  rebuild opts sel = inr sel' →
  ∀ x, x ∈ Dom.options sel' → Dom.value x ≠ name.
Proof.
  intros Hname Hnone (o0 & _ & Hopts)%rebuild_options x Hx.
  rewrite Hopts, Hname in Hx. apply elem_of_app in Hx as [Hx|Hx].
  - case_decide as H0; [|by apply elem_of_nil in Hx].
    apply list_elem_of_singleton in Hx as ->. congruence.
  - by apply list_elem_of_filter in Hx as [? _].
Qed.


End Options.

(** ** The manager on the pages *)
Section Pages.

Lemma wf_Forall {Model PS : Type} `{!Source.t Model PS} (w : world (PS:=PS)) :
  Forall (λ kv, is_Some (heap w !! kv.2)) (sources w) → wf w.
Proof.
  unfold wf. induction 1 as [|[k l0] srcs Hl0 _ IH]; intros name l; cbn.
  - done.
  - case_decide; [by intros [= <-]|apply IH].
Qed.

Lemma get_foldl_delete {V : Type} (o : JsObj.t V) (ids : list string) k :
  k ∈ ids → JsObj.get (foldl JsObj.delete o ids) k = None.
Proof.
  revert o. induction ids as [|id ids IH]; intros o Hk; cbn.
  - by apply elem_of_nil in Hk.
  - destruct (decide (k ∈ ids)) as [Hin|Hin]; [by apply IH|].
    apply elem_of_cons in Hk as [->|?]; [|done].
    clear IH Hin. generalize (get_delete_eq o id).
    generalize (JsObj.delete o id). clear o.
    induction ids as [|id' ids IH]; intros o Ho; cbn; [done|].
    apply IH. rewrite get_delete. by case_decide.
Qed.

(** The widgets honour the contract of [removeSkeletons]. *)
Lemma basic_honours_removal : honours_removal (PS:=basic).
Proof.
  intros b ids id Hid. cbn. apply bool_decide_eq_false_2.
  rewrite get_foldl_delete by done. by intros [? ?].
Qed.

Lemma demo_page_wf : wf demo_page.
Proof. apply wf_Forall. repeat constructor; by eexists. Qed.

Lemma demo_page_distinct : distinct_sources demo_page.
Proof.
  split; [by apply (bool_decide_unpack _)|].
  intros n1 n2 l. cbn. repeat case_decide; congruence.
Qed.

Lemma hyphen_page_wf : wf hyphen_page.
Proof. apply wf_Forall. repeat constructor; by eexists. Qed.

(** The demo page comes from the manager itself: [A] and [B] are added
    and the select of [B] is made, then [C] is added and the select of
    [A] is made, in which [C] is then chosen. *)
Lemma demo_page_built :
  ∃ w2 w3,
    add_all [0%nat; 1%nat] (SkeletonSourceManager demo_heap []) = Return tt w2
    ∧ createSelect 1%nat w2
      = Return {| Dom.id := "skeleton-source-select-B";
                  Dom.options := [Dom.Option "A" "A"];
                  Dom.selectedIndex := 0 |} w2
    ∧ add 2%nat w2 = Return tt w3
    ∧ sources w3 = sources demo_page
    ∧ createSelect 0%nat w3
      = Return {| Dom.id := "skeleton-source-select-A";
                  Dom.options := [Dom.Option "B" "B"; Dom.Option "C" "C"];
                  Dom.selectedIndex := 0 |} w3.
Proof.
  do 2 eexists.
  split_and!; [vm_compute; reflexivity|reflexivity|vm_compute; reflexivity
              |reflexivity|reflexivity].
Qed.


(** C1, the defect.  A page the manager makes by itself: [A] is added
    and its select is made, which offers nothing and goes into the
    page, then [B], whose [linkTarget] is [A], is added.  [remove(A)]
    deletes the entry of [A] and raises in [updateGUI], on the select
    without option, before it comes to the scan of the links: [A] is
    registered no more, [B] is, and the [linkTarget] of [B] is still
    [A]. *)
Theorem remove_raises_before_unlinking :
  ∃ w1 sel w3 w4,
    add 0%nat (SkeletonSourceManager demo_heap []) = Return tt w1
    ∧ createSelect 0%nat w1 = Return sel w1
    ∧ sel = {| Dom.id := "skeleton-source-select-A"; Dom.options := [];
               Dom.selectedIndex := -1 |}
    ∧ add 1%nat (attach sel w1) = Return tt w3
    ∧ remove 0%nat w3 = Throw TypeError w4
    ∧ ¬ registered w4 0%nat
    ∧ registered w4 1%nat
    ∧ linkTarget <$> heap w4 !! 1%nat = Some (Some 0%nat).
Proof.
  do 4 eexists.
  split_and!; [vm_compute; reflexivity|vm_compute; reflexivity
              |reflexivity|vm_compute; reflexivity
              |vm_compute; reflexivity| |by exists "B"|reflexivity].
  intros [name Hname]. cbn in Hname. repeat case_decide; discriminate.
Qed.

(** When [remove] returns, on the demo page: removing [A] clears the
    link of [B]. *)
Lemma remove_clears_links_witness :
  ∃ w', remove 0%nat demo_page = Return tt w'
        ∧ (∀ q, registered w' q →
                ∃ oq', heap w' !! q = Some oq'
                       ∧ linkTarget oq' ≠ Some 0%nat)
        ∧ (∀ q oq, registered w' q → heap demo_page !! q = Some oq →
                   linkTarget oq = Some 0%nat →
                   ∃ oq', heap w' !! q = Some oq' ∧ linkTarget oq' = None).
Proof.
  eexists. split; [vm_compute; reflexivity|].
  apply (remove_clears_links demo_page 0%nat). vm_compute. reflexivity.
Defined.

(** C2 as stated fails for a source called [__proto__]: [add] returns
    and the table has no entry for it, under its name or any other; the
    source has become the prototype of the table instead. *)
Lemma add_proto_no_entry :
  name_of proto_heap 0%nat = Some "__proto__"
  ∧ last_added proto_heap "__proto__" [0%nat] = Some 0%nat
  ∧ ∃ w', add_all [0%nat] (SkeletonSourceManager proto_heap []) = Return tt w'
          ∧ JsObj.keys (sources w') = []
          ∧ JsObj.get (sources w') "__proto__" = None
          ∧ ¬ registered w' 0%nat
          ∧ proto w' = Some 0%nat.
Proof.
  split_and!; [reflexivity..|].
  eexists. split_and!; [vm_compute; reflexivity|reflexivity..| |reflexivity].
  by intros [name Hname].
Qed.

(** C2, amended, on the demo widgets: the second widget called [A]
    takes the place of the first. *)
Lemma add_last_write_wins_witness :
  ∃ w', add_all [0%nat; 1%nat; 4%nat] (SkeletonSourceManager demo_heap [])
        = Return tt w'
        ∧ NoDup (JsObj.keys (sources w'))
        ∧ (∀ name, name ∈ JsObj.keys (sources w')
                   ↔ ∃ p, p ∈ [0%nat; 1%nat; 4%nat]
                          ∧ name_of demo_heap p = Some name)
        ∧ (∀ name, JsObj.get (sources w') name
                   = last_added demo_heap name [0%nat; 1%nat; 4%nat]).
Proof.
  apply (add_last_write_wins demo_heap [] [0%nat; 1%nat; 4%nat]).
  - intros p Hp. apply list_elem_of_In in Hp. simpl in Hp.
    destruct Hp as [<-|[<-|[<-|[]]]]; by eexists.
  - intros p Hp. apply list_elem_of_In in Hp. simpl in Hp.
    destruct Hp as [<-|[<-|[<-|[]]]]; intros Heq; vm_compute in Heq;
      discriminate.
Defined.


(** C4 on the demo page. *)
Lemma removeSkeletons_broadcast_witness :
  ∃ w' evs,
    removeSkeletons ["2"] demo_page = Return tt w'
    ∧ sources w' = sources demo_page
    ∧ trace w' = trace demo_page ++ evs
    ∧ (∀ e, e ∈ evs
            ↔ ∃ l, registered demo_page l
                   ∧ e = Invoke l (RemoveSkeletons ["2"]))
    ∧ (∀ l, registered demo_page l →
            ∃ o', heap w' !! l = Some o'
                  ∧ ∀ id, id ∈ ["2"] →
                          Source.hasSkeleton (impl o') id = false).
Proof.
  destruct (removeSkeletons_broadcast demo_page ["2"] demo_page_wf)
    as (w' & evs & H1 & H2 & H3 & H4 & H5).
  exists w', evs. split_and!; try done. apply H5, basic_honours_removal.
Defined.

(** C5 on the demo page, [A] calling. *)
Lemma highlight_broadcast_witness :
  ∃ w' evs,
    highlight 0%nat "2" demo_page = Return tt w'
    ∧ sources w' = sources demo_page
    ∧ trace w' = trace demo_page ++ evs
    ∧ (∀ e, e ∈ evs
            ↔ ∃ l, registered demo_page l ∧ l ≠ 0%nat
                   ∧ e = Invoke l (Highlight "2"))
    ∧ (Invoke 0%nat (Highlight "2") ∉ evs)
    ∧ (∀ l, registered demo_page l → l ≠ 0%nat →
            ∃ o' s, heap w' !! l = Some o'
                    ∧ impl o' = Source.highlight s "2")
    ∧ heap w' !! 0%nat = heap demo_page !! 0%nat
    ∧ (∀ l o, registered demo_page l → l ≠ 0%nat →
              heap demo_page !! l = Some o →
              heap w' !! l
              = Some (with_state (Source.highlight (impl o) "2") o)).
Proof.
  destruct (highlight_broadcast demo_page 0%nat "2" demo_page_wf)
    as (w' & evs & H1 & H2 & H3 & H4 & H5 & H6 & H7 & H8).
  exists w', evs. split_and!; try done. apply H8, demo_page_distinct.
Defined.

(** C8 on the demo page, where [B] has no [setVisible]. *)
Lemma setVisible_broadcast_witness :
  ∃ w' evs,
    setVisible ["2"] false demo_page = Return tt w'
    ∧ sources w' = sources demo_page
    ∧ trace w' = trace demo_page ++ evs
    ∧ (∀ e, e ∈ evs
            ↔ ∃ l o, registered demo_page l ∧ heap demo_page !! l = Some o
                     ∧ can_setVisible o = true
                     ∧ e = Invoke l (SetVisible ["2"] false))
    ∧ (∀ l o, registered demo_page l → heap demo_page !! l = Some o →
              can_setVisible o = true →
              ∃ o' s f, heap w' !! l = Some o'
                        ∧ Source.setVisible s = Some f
                        ∧ impl o' = f ["2"] false)
    ∧ (∀ l o, heap demo_page !! l = Some o → can_setVisible o = false →
              heap w' !! l = Some o)
    ∧ (∀ l o f, registered demo_page l → heap demo_page !! l = Some o →
                Source.setVisible (impl o) = Some f →
                heap w' !! l = Some (with_state (f ["2"] false) o)).
Proof.
  destruct (setVisible_broadcast demo_page ["2"] false demo_page_wf)
    as (w' & evs & H1 & H2 & H3 & H4 & H5 & H6 & H7).
  exists w', evs. split_and!; try done. apply H7, demo_page_distinct.
Defined.

(** C6, the defect.  On the demo page the select of [A] has [C] chosen
    and [C] has no skeleton.  [getSelectedSkeletons] raises its alert;
    [getSelectedSkeletonModels] returns the empty models object and says
    nothing: the world it returns in is the one it was called in. *)
Theorem getSelectedSkeletonModels_no_notice :
  getSelectedSource 0%nat demo_page = Return (Ref 2%nat) demo_page
  ∧ getSelectedSkeletons 0%nat demo_page
    = Return [] (emit (GrowlAlert "Info" "No skeletons available at C")
                   demo_page)
  ∧ getSelectedSkeletonModels 0%nat demo_page
    = Return (ObjectOf JsObj.empty) demo_page.
Proof.
  split_and!.
  - reflexivity.
  - by rewrite (getSelectedSkeletons_empty 0%nat
                  (widget "A" [("1", "n1"); ("2", "n2")]) 2%nat
                  (widget "C" []) demo_page).
  - by apply (getSelectedSkeletonModels_empty_silent 0%nat
                (widget "A" [("1", "n1"); ("2", "n2")]) 2%nat (widget "C" [])).
Qed.

(** C7 as stated fails on the demo page: [Z] is not registered, nothing
    is registered under its name, and [remove(Z)] changes the select of
    [B], which then lists [C] as well. *)
Lemma remove_unregistered_not_noop :
  ¬ registered demo_page 3%nat
  ∧ ∃ w', remove 3%nat demo_page = Return tt w'
          ∧ Dom.by_id "skeleton-source-select-B" (document demo_page)
            = Some {| Dom.id := "skeleton-source-select-B";
                      Dom.options := [Dom.Option "A" "A"];
                      Dom.selectedIndex := 0 |}
          ∧ Dom.by_id "skeleton-source-select-B" (document w')
            = Some {| Dom.id := "skeleton-source-select-B";
                      Dom.options := [Dom.Option "A" "A"; Dom.Option "C" "C"];
                      Dom.selectedIndex := 0 |}
          ∧ w' ≠ demo_page.
Proof.
  split.
  - intros [name Hname]. cbn in Hname. repeat case_decide; discriminate.
  - eexists. split_and!; [vm_compute; reflexivity|reflexivity|reflexivity|].
    intros Heq. apply (f_equal document) in Heq. vm_compute in Heq.
    discriminate.
Qed.

(** C7, amended, on the demo page. *)
Lemma remove_unregistered_name_witness :
  ∃ w1 w',
    updateGUI demo_page = Return tt w1
    ∧ remove 3%nat demo_page = Return tt w'
    ∧ sources w' = sources demo_page ∧ trace w' = trace demo_page
    ∧ document w' = document w1
    ∧ (∀ l ol, heap demo_page !! l = Some ol → linkTarget ol ≠ Some 3%nat →
               heap w' !! l = Some ol)
    ∧ (∀ l ol, registered demo_page l → heap demo_page !! l = Some ol →
               linkTarget ol = Some 3%nat →
               heap w' !! l = Some (unlinked ol))
    ∧ (∀ l, heap demo_page !! l = None → heap w' !! l = None).
Proof.
  pose proof (remove_unregistered_name demo_page 3%nat (widget "Z" [])
                demo_page_wf eq_refl eq_refl) as Hrun.
  destruct (updateGUI demo_page) as [[] w1|e w1] eqn:Hgui.
  - destruct Hrun as (w' & Hrun). by exists w1, w'.
  - vm_compute in Hgui. discriminate.
Defined.

(** C9, the defect.  On the page of [A-1] and [B] the select of [A-1] is
    the one [createSelect] makes, without [A-1] in it.  After
    [remove(B)] the source [A-1] is still registered and its select has
    been rebuilt with [A-1] as its one option. *)
Theorem updateGUI_offers_hyphenated_self :
  (∃ sel, createSelect 0%nat hyphen_page = Return sel hyphen_page
          ∧ document hyphen_page = [sel]
          ∧ Dom.value <$> Dom.options sel = ["B"])
  ∧ select_name (select_id_of "A-1") = "A 1"
  ∧ ∃ w', remove 1%nat hyphen_page = Return tt w'
          ∧ name_of (heap w') 0%nat = Some "A-1"
          ∧ JsObj.get (sources w') "A-1" = Some 0%nat
          ∧ document w'
            = [ {| Dom.id := select_id_of "A-1";
                   Dom.options := [Dom.Option "A-1" "A-1"];
                   Dom.selectedIndex := 0 |} ].
Proof.
  split_and!.
  - eexists. split_and!; [vm_compute; reflexivity|reflexivity|reflexivity].
  - reflexivity.
  - eexists. split_and!; [vm_compute; reflexivity|reflexivity..].
Qed.

(** C10 as stated fails for a name without hyphen: the id of
    [my push source] holds [-push-], and what is read back is [my]. *)
Lemma select_name_push_counterexample :
  JsString.contains_char "-" "my push source" = false
  ∧ select_id_of "my push source" = "skeleton-source-select-my-push-source"
  ∧ select_name (select_id_of "my push source") = "my"
  ∧ select_name (select_id_of "my push source") ≠ "my push source".
Proof. split_and!; [reflexivity..|]. vm_compute. discriminate. Qed.

End Pages.

(** ** The selects the manager makes *)
Section Selects.
Context {Model PS : Type} `{!JsValue Model} `{!Source.t Model PS}.
Implicit Types (w : world (PS:=PS)) (sel : Dom.select) (opts : list Dom.opt).

Lemma StronglySorted_filter {A : Type} (R : relation A) (P : A → Prop)
    `{!∀ x, Decision (P x)} (l : list A) :
  StronglySorted R l → StronglySorted R (filter P l).
Proof.
  induction 1 as [|x l Hl IH Hx]; [constructor|].
  rewrite filter_cons. case_decide; [|done].
  constructor; [done|].
  apply Forall_forall. intros y [_ Hy]%list_elem_of_filter.
  by eapply Forall_forall in Hx.
Qed.

Lemma values_filter (name : string) opts :
  Dom.value <$> filter (λ x, Dom.value x ≠ name) opts
  = filter (λ n, n ≠ name) (Dom.value <$> opts).
Proof.
  induction opts as [|x opts IH]; [done|].
  rewrite fmap_cons, !filter_cons.
  repeat case_decide; try done; by rewrite fmap_cons, IH.
Qed.

Lemma options_of_sorted (srcs : JsObj.t loc) :
  StronglySorted String.le (Dom.value <$> options_of srcs).
Proof. rewrite options_of_values. apply StronglySorted_merge_sort; apply _. Qed.

Lemma elem_of_options_of (srcs : JsObj.t loc) (name : string) :
  name ∈ Dom.value <$> options_of srcs ↔ is_Some (JsObj.get srcs name).
Proof.
  rewrite options_of_values, merge_sort_Permutation. apply elem_of_keys.
Qed.

(** The names of the table other than [name], in order. *)
Lemma others_sorted (srcs : JsObj.t loc) (name : string) :
  StronglySorted String.le
    (Dom.value <$> filter (λ x, Dom.value x ≠ name) (options_of srcs))
  ∧ ∀ n, n ∈ Dom.value <$> filter (λ x, Dom.value x ≠ name) (options_of srcs)
         ↔ is_Some (JsObj.get srcs n) ∧ n ≠ name.
Proof.
  rewrite values_filter. split.
  - apply StronglySorted_filter, options_of_sorted.
  - intros n. rewrite list_elem_of_filter, elem_of_options_of. tauto.
Qed.

Lemma prefix_app_r (pat s : string) : String.prefix pat (pat +:+ s) = true.
Proof.
  induction pat as [|x pat IH]; simpl; [by destruct s|].
  by destruct (ascii_dec x x).
Qed.

Lemma select_id_listed (name rest : string) :
  String.prefix select_prefix (select_id_of name +:+ rest) = true
  ∧ String.prefix select_prefix (select_id_of name) = true.
Proof.
  split; [|apply prefix_app_r].
  change (select_id_of name +:+ rest)
    with (select_prefix +:+ (JsString.replace " " "-" name +:+ rest)).
  apply prefix_app_r.
Qed.

(** X1. [createOptions] changes nothing and gives one option per name
    of [this.sources], made with the name as its text content and as
    its value; the names come in ascending order of their code units. *)
Theorem createOptions_lists_names w :
  ∃ opts, createOptions w = Return opts w
          ∧ StronglySorted String.le (Dom.value <$> opts)
          ∧ Dom.value <$> opts ≡ₚ JsObj.keys (sources w)
          ∧ (∀ name, name ∈ Dom.value <$> opts
                     ↔ is_Some (JsObj.get (sources w) name))
          ∧ ∀ o, o ∈ opts → Dom.textContent o = Dom.value o.
Proof.
  exists (options_of (sources w)). split_and!; [done| | | |].
  - apply options_of_sorted.
  - rewrite options_of_values. apply merge_sort_Permutation.
  - apply elem_of_options_of.
  - unfold options_of. by intros o (name & -> & _)%list_elem_of_fmap.
Qed.

(** X2. For a source of the store, [createSelect] changes nothing and
    returns a select with the id [createSelectID] gives, that offers, in
    ascending order, exactly the names of [this.sources] other than the
    name of the source. *)
Theorem createSelect_lists_others w p o :
  heap w !! p = Some o →
  ∃ sel, createSelect p w = Return sel w
         ∧ createSelectID p w = Return (Dom.id sel) w
         ∧ listed sel
         ∧ StronglySorted String.le (offered sel)
         ∧ ∀ n, n ∈ offered sel
                ↔ is_Some (JsObj.get (sources w) n)
                  ∧ n ≠ Source.getName (impl o).
Proof.
  intros Hp. destruct (createSelect_options w p o Hp) as (sel & Hrun & Hid & Hopts).
  exists sel. unfold offered, listed. rewrite Hopts, Hid.
  split_and!; [done|by apply createSelectID_Some
              |apply (select_id_listed _ "")|..];
    apply others_sorted.
Qed.

(** X3. For a source of the store, [createPushSelect] changes nothing
    and returns a select whose id is the one of [createSelectID]
    followed by [-push-] and the suffix, whose first entry is [None],
    and that offers after it, in ascending order, exactly the names of
    [this.sources] other than the name of the source. *)
Theorem createPushSelect_lists_others w p o (suffix : string) :
  heap w !! p = Some o →
  ∃ sel rest,
    createPushSelect p suffix w = Return sel w
    ∧ Dom.id sel
      = select_id_of (Source.getName (impl o)) +:+ "-push-" +:+ suffix
    ∧ listed sel
    ∧ Dom.options sel = Dom.Option "None" "None" :: rest
    ∧ Dom.select_val sel = Dom.ValString "None"
    ∧ StronglySorted String.le (Dom.value <$> rest)
    ∧ ∀ n, n ∈ Dom.value <$> rest
           ↔ is_Some (JsObj.get (sources w) n)
             ∧ n ≠ Source.getName (impl o).
Proof.
  intros Hp.
  exists (fold_left (list_push_option (Source.getName (impl o)))
            (options_of (sources w))
            (Dom.options_add (Dom.Option "None" "None")
               (Dom.create (select_id_of (Source.getName (impl o))
                            +:+ "-push-" +:+ suffix)))),
    (filter (λ x, Dom.value x ≠ Source.getName (impl o))
       (options_of (sources w))).
  pose proof (fold_list_push_option (Source.getName (impl o))
                (options_of (sources w))
                (Dom.options_add (Dom.Option "None" "None")
                   (Dom.create (select_id_of (Source.getName (impl o))
                                +:+ "-push-" +:+ suffix)))) as [Hopts Hid].
  split_and!; [| | | | |apply others_sorted..].
  - unfold createPushSelect.
    rewrite (bind_Return _ _ _ _ _ (createSelectID_Some _ _ _ Hp)).
    by rewrite (bind_Return _ _ _ _ _ (call_getName_Some _ _ _ Hp)).
  - by rewrite Hid.
  - unfold listed. rewrite Hid. apply select_id_listed.
  - by rewrite Hopts.
  - unfold Dom.select_val. rewrite Hopts.
    generalize (options_of (sources w)).
    assert (∀ l sel, Dom.selectedIndex sel = 0 →
      Dom.selectedIndex
        (fold_left (list_push_option (Source.getName (impl o))) l sel) = 0)
      as Hidx.
    { induction l as [|x l IH]; intros sel Hsel; [done|].
      cbn [fold_left]. apply IH. unfold list_push_option.
      case_decide; [|done]. cbn. by rewrite Hsel. }
    intros l. by rewrite Hidx.
Qed.

(** *** [updateGUI] select by select *)

Lemma rebuild_inl opts sel e :
  rebuild opts sel = inl e ↔ selected_value sel = None ∧ e = TypeError.
Proof.
  unfold rebuild, selected_value.
  destruct (Dom.item (Dom.options sel) _) as [o|] eqn:Hsel.
  - destruct (Dom.item (Dom.options sel) 0) as [o0|] eqn:H0.
    + cbn. split; [done|by intros [? _]].
    + exfalso. unfold Dom.item in *. cbn in H0.
      destruct (Dom.options sel); [|done].
      by destruct (_ <? 0).
  - cbn. split; [by intros [= <-]|by intros [_ ->]].
Qed.

Lemma select_wf_selected sel :
  select_wf sel → selected_value sel = None ↔ Dom.options sel = [].
Proof.
  unfold select_wf, selected_value, Dom.item. intros [Hlo Hhi].
  rewrite fmap_None. case_decide as Hm.
  - cbn. by destruct (Dom.options sel).
  - destruct (Z.ltb_spec (Dom.selectedIndex sel) 0) as [?|_]; [lia|].
    rewrite lookup_ge_None. split; [intros ?; exfalso; lia|].
    intros ->. cbn. lia.
Qed.

Lemma rebuild_id opts sel sel' :
  rebuild opts sel = inr sel' → Dom.id sel' = Dom.id sel.
Proof.
  unfold rebuild. destruct (Dom.item _ _); [|done].
  destruct (Dom.item _ 0); [|done]. intros [= <-].
  assert (∀ l s0, Dom.id (fold_left (offer (select_name (Dom.id sel))
            (Dom.value o)) l s0) = Dom.id s0) as Hfold.
  { induction l as [|x l IH]; intros s0; [done|].
    cbn [fold_left]. by rewrite IH, offer_id. }
  by rewrite Hfold.
Qed.

Lemma rebuild_rebuilt (srcs : JsObj.t loc) sel sel' :
  rebuild (options_of srcs) sel = inr sel' → rebuilt srcs sel sel'.
Proof.
  intros Hrun. split; [by eapply rebuild_id|].
  apply rebuild_options in Hrun as (o0 & H0 & Hopts).
  exists (filter (λ o, Dom.value o ≠ select_name (Dom.id sel))
            (options_of srcs)).
  split; [|apply others_sorted].
  rewrite Hopts. f_equal. unfold kept_entry, Dom.item in *. cbn in H0.
  destruct (Dom.options sel) as [|o1 l]; [done|]. by injection H0 as ->.
Qed.

(** What [each] does to a page: up to the first failure the listed
    selects are turned by [f], the others are left. *)
Lemma each_None (f : Dom.select → exn + Dom.select) doc doc' :
  each f doc = (doc', None) →
  Forall2 (λ sel sel', if decide (listed sel) then f sel = inr sel'
                       else sel' = sel) doc doc'.
Proof.
  revert doc'. induction doc as [|sel doc IH]; intros doc'; cbn.
  - intros [= <-]. constructor.
  - unfold listed. destruct (String.prefix _ _) eqn:Hp.
    + destruct (f sel) as [e|s1] eqn:Hf; [done|].
      destruct (each f doc) as [d r]. intros [= <- ->].
      constructor; [by rewrite decide_True|by apply IH].
    + destruct (each f doc) as [d r]. intros [= <- ->].
      constructor; [by rewrite decide_False by congruence|by apply IH].
Qed.

Lemma each_Some (f : Dom.select → exn + Dom.select) doc doc' e :
  each f doc = (doc', Some e) →
  ∃ sel, sel ∈ doc ∧ listed sel ∧ f sel = inl e.
Proof.
  revert doc'. induction doc as [|sel doc IH]; intros doc'; cbn; [done|].
  destruct (String.prefix select_prefix (Dom.id sel)) eqn:Hp.
  - destruct (f sel) as [e'|s1] eqn:Hf.
    + intros [= <- <-]. exists sel. split_and!; [by left|done|done].
    + destruct (each f doc) as [d r]. intros [= <- ->].
      destruct (IH d eq_refl) as (s & ? & ? & ?).
      exists s. split_and!; [by right|done|done].
  - destruct (each f doc) as [d r]. intros [= <- ->].
    destruct (IH d eq_refl) as (s & ? & ? & ?).
    exists s. split_and!; [by right|done|done].
Qed.

Lemma each_total (f : Dom.select → exn + Dom.select) doc :
  (∀ sel, sel ∈ doc → listed sel → ∃ sel', f sel = inr sel') →
  ∃ doc', each f doc = (doc', None).
Proof.
  induction doc as [|sel doc IH]; intros Hf; cbn; [by eexists|].
  destruct IH as [d Hd]; [intros s Hs; apply Hf; by right|].
  rewrite Hd. destruct (String.prefix _ _) eqn:Hp; [|by eexists].
  destruct (Hf sel) as [s1 ->]; [by left|done|by eexists].
Qed.

Lemma updateGUI_page w w' :
  updateGUI w = Return tt w' →
  Forall2 (λ sel sel', if decide (listed sel)
                       then rebuilt (sources w) sel sel'
                       else sel' = sel)
    (document w) (document w').
Proof.
  unfold updateGUI.
  destruct (each _ _) as [doc [e|]] eqn:Heach; [done|]. intros [= <-].
  cbn. apply each_None in Heach. eapply Forall2_impl; [exact Heach|].
  intros sel sel'. cbn. case_decide; [|done]. apply rebuild_rebuilt.
Qed.

(** X4. When [updateGUI] returns, the store, [this.sources] and what was
    sent out are as before, and the page has the same elements in the
    same order: one that is not listed is untouched, a listed select
    keeps its id and its first entry when that is [None], and offers
    after it, in ascending order, exactly the names of [this.sources]
    other than the name read back from its id. *)
Theorem updateGUI_rebuilds w w' :
  updateGUI w = Return tt w' →
  heap w' = heap w ∧ sources w' = sources w ∧ trace w' = trace w
  ∧ Forall2 (λ sel sel', if decide (listed sel)
                         then rebuilt (sources w) sel sel'
                         else sel' = sel)
      (document w) (document w').
Proof.
  intros Hrun. pose proof (updateGUI_inv _ _ Hrun) as (? & ? & ?).
  split_and!; try done. by apply updateGUI_page.
Qed.

(** X6. On a page whose selects are well formed, [updateGUI] returns
    exactly when every listed select has an option; otherwise it raises
    a [TypeError], with the store, [this.sources] and what was sent out
    as before. *)
Theorem updateGUI_returns_iff w :
  (∀ sel, sel ∈ document w → select_wf sel) →
  ((∃ w', updateGUI w = Return tt w')
   ↔ ∀ sel, sel ∈ document w → listed sel → Dom.options sel ≠ [])
  ∧ ∀ e w', updateGUI w = Throw e w' →
            e = TypeError ∧ heap w' = heap w ∧ sources w' = sources w
            ∧ trace w' = trace w.
Proof.
  intros Hwf. split; [split|].
  - intros [w' Hrun] sel Hin Hl Hempty. unfold updateGUI in Hrun.
    destruct (each _ _) as [doc [e|]] eqn:Heach; [done|].
    apply each_None in Heach.
    apply list_elem_of_lookup in Hin as [i Hi].
    destruct (Forall2_lookup_l _ _ _ _ _ Heach Hi) as (sel' & _ & Hsel).
    rewrite decide_True in Hsel by done.
    assert (rebuild (options_of (sources w)) sel = inl TypeError) as Hbad.
    { apply rebuild_inl. split; [|done].
      apply select_wf_selected; [|done]. apply Hwf, list_elem_of_lookup.
      by eexists. }
    congruence.
  - intros Hopts.
    destruct (each_total (rebuild (options_of (sources w))) (document w))
      as [doc Hdoc].
    { intros sel Hin Hl.
      destruct (rebuild (options_of (sources w)) sel) as [e|sel'] eqn:Hr;
        [|by eexists].
      apply rebuild_inl in Hr as [Hr _].
      apply select_wf_selected in Hr; [|by apply Hwf]. by destruct (Hopts sel). }
    unfold updateGUI. rewrite Hdoc. by eexists.
  - intros e w' Hrun. pose proof Hrun as Hframe.
    apply updateGUI_Throw_inv in Hframe as (? & ? & ?).
    split_and!; try done. unfold updateGUI in Hrun.
    destruct (each _ _) as [doc [e'|]] eqn:Heach; [|done].
    injection Hrun as <- _.
    apply each_Some in Heach as (sel & _ & _ & Hr).
    by apply rebuild_inl in Hr as [_ ->].
Qed.


(** *** The selection across a rebuild *)

Lemma select_val_String sel v :
  Dom.select_val sel = Dom.ValString v
  ↔ ∃ o, Dom.options sel !! Z.to_nat (Dom.selectedIndex sel) = Some o
         ∧ 0 ≤ Dom.selectedIndex sel ∧ Dom.value o = v.
Proof.
  unfold Dom.select_val, Dom.item.
  destruct (Z.ltb_spec (Dom.selectedIndex sel) 0) as [Hneg|Hpos].
  - split; [done|]. intros (? & _ & ? & _). lia.
  - destruct (Dom.options sel !! _) as [o|]; [|split; [done|by intros (? & ? & _)]].
    split.
    + intros [= <-]. by exists o.
    + by intros (? & [= <-] & _ & <-).
Qed.

Lemma tracks_offer (name v : string) sel (o : Dom.opt) :
  tracks v sel → tracks v (offer name v sel o).
Proof.
  intros (Hempty & Hin & Hout). unfold offer.
  case_decide as Hname; [done|].
  assert (Dom.options (Dom.options_add o sel) = Dom.options sel ++ [o])
    as Hopts by done.
  case_decide as Hv.
  - unfold tracks, offered. cbn. rewrite length_app. cbn.
    assert ((0 <=? Z.of_nat (length (Dom.options sel) + 1) - 1)
            && (Z.of_nat (length (Dom.options sel) + 1) - 1
                <? Z.of_nat (length (Dom.options sel) + 1)) = true) as ->.
    { apply andb_true_iff. split; [apply Z.leb_le|apply Z.ltb_lt]; lia. }
    split_and!.
    + by intros [_ ?]%app_eq_nil.
    + intros _. apply select_val_String. exists o. cbn.
      rewrite length_app. cbn.
      assert ((0 <=? Z.of_nat (length (Dom.options sel) + 1) - 1)
              && (Z.of_nat (length (Dom.options sel) + 1) - 1
                  <? Z.of_nat (length (Dom.options sel) + 1)) = true) as ->.
      { apply andb_true_iff. split; [apply Z.leb_le|apply Z.ltb_lt]; lia. }
      replace (Z.to_nat (Z.of_nat (length (Dom.options sel) + 1) - 1))
        with (length (Dom.options sel) + 0)%nat by lia.
      rewrite lookup_app_r by lia.
      replace (length (Dom.options sel) + 0 - length (Dom.options sel))%nat
        with 0%nat by lia.
      split_and!; [done|lia|done].
    + intros Hnot. exfalso. apply Hnot. rewrite fmap_app.
      apply elem_of_app. right. rewrite <- Hv. by left.
  - unfold tracks, offered. rewrite Hopts, fmap_app. cbn [fmap list_fmap].
    split_and!.
    + by intros [_ ?]%app_eq_nil.
    + intros [Hv'|Hv']%elem_of_app;
        [|apply list_elem_of_singleton in Hv'; congruence].
      apply Hin, select_val_String in Hv' as (o' & Ho' & Hpos & Hval).
      apply select_val_String. exists o'. cbn.
      destruct (Z.ltb_spec (Dom.selectedIndex sel) 0); [lia|].
      split_and!; [|done|done]. by apply lookup_app_l_Some.
    + intros Hnot _. cbn.
      destruct (decide (Dom.options sel = [])) as [Hl|Hl].
      * rewrite Hempty; done.
      * rewrite Hout; [done| |done]. intros ?. apply Hnot.
        apply elem_of_app. by left.
Qed.

Lemma tracks_fold (name v : string) opts sel :
  tracks v sel → tracks v (fold_left (offer name v) opts sel).
Proof.
  revert sel. induction opts as [|o opts IH]; intros sel Hsel; [done|].
  cbn [fold_left]. by apply IH, tracks_offer.
Qed.

(** X5. When [updateGUI] rebuilds a select, a value that was selected
    and is still offered stays selected; when it is no longer offered
    the first entry becomes selected, or nothing when the select is left
    without option. *)
Theorem rebuild_keeps_selection opts sel sel' (v : string) :
  rebuild opts sel = inr sel' →
  selected_value sel = Some v →
  (v ∈ offered sel' → Dom.select_val sel' = Dom.ValString v)
  ∧ (v ∉ offered sel' →
     Dom.selectedIndex sel' = if decide (Dom.options sel' = []) then -1 else 0).
Proof.
  unfold rebuild, selected_value.
  destruct (Dom.item (Dom.options sel) _) as [o|]; [|done].
  destruct (Dom.item (Dom.options sel) 0) as [o0|] eqn:H0; [|done].
  intros [= <-] [= <-].
  set (s0 := Dom.set_selectedIndex 0
               (Dom.set_length
                  (if decide (Dom.value o0 = "None") then 1 else 0)%nat sel)).
  assert (tracks (Dom.value o) s0) as Hbase.
  { unfold s0, Dom.item in *. cbn in H0.
    destruct (Dom.options sel) as [|o1 l] eqn:Hl; [done|].
    injection H0 as ->. unfold tracks, offered, Dom.select_val, Dom.item.
    cbn. rewrite Hl. case_decide; cbn; split_and!; try done.
    - by intros ->%list_elem_of_singleton.
    - by intros ?%elem_of_nil. }
  clearbody s0.
  apply (tracks_fold (select_name (Dom.id sel)) _ opts) in Hbase
    as (Hempty & Hin & Hout).
  split; [done|]. intros Hnot. case_decide as He; [by apply Hempty|].
  by apply Hout.
Qed.


Lemma kept_entry_rebuilt (srcs : JsObj.t loc) sel sel' :
  JsObj.get srcs "None" = None →
  rebuild (options_of srcs) sel = inr sel' →
  kept_entry sel' = kept_entry sel.
Proof.
  intros Hnone (o0 & H0 & Hopts)%rebuild_options.
  unfold kept_entry at 1. rewrite Hopts.
  unfold kept_entry, Dom.item in *. cbn in H0.
  destruct (Dom.options sel) as [|o1 l]; [done|]. injection H0 as ->.
  destruct (decide (Dom.value o0 = "None")) as [Hv|Hv];
    [cbn; by destruct (decide (Dom.value o0 = "None"))|]. cbn.
  destruct (filter _ _) as [|x rest] eqn:Hf; [done|].
  destruct (decide (Dom.value x = "None")) as [Hx|]; [exfalso|done].
  assert (x ∈ options_of srcs) as Hin.
  { assert (x ∈ x :: rest) as Hin by by left.
    rewrite <- Hf in Hin. by apply list_elem_of_filter in Hin as [_ ?]. }
  assert (is_Some (JsObj.get srcs "None")) as [? ?]; [|congruence].
  apply elem_of_options_of. rewrite <- Hx. by apply list_elem_of_fmap_2.
Qed.

(** X22. When no source is called [None], rebuilding twice offers what
    rebuilding once does: if [updateGUI] returns and returns again on
    the page it left, the second page has the same elements with the
    same ids and the same options. *)
Theorem updateGUI_twice w w1 w2 :
  JsObj.get (sources w) "None" = None →
  updateGUI w = Return tt w1 → updateGUI w1 = Return tt w2 →
  Forall2 (λ sel1 sel2, Dom.id sel2 = Dom.id sel1
                        ∧ Dom.options sel2 = Dom.options sel1)
    (document w1) (document w2).
Proof.
  intros Hnone Hrun1 Hrun2.
  pose proof (updateGUI_inv _ _ Hrun1) as (_ & Hs1 & _).
  unfold updateGUI in Hrun1, Hrun2. rewrite Hs1 in Hrun2.
  destruct (each _ (document w)) as [doc1 [e|]] eqn:Heach1; [done|].
  destruct (each _ (document w1)) as [doc2 [e|]] eqn:Heach2; [done|].
  injection Hrun1 as <-. injection Hrun2 as <-. cbn in *.
  apply each_None in Heach1, Heach2.
  apply Forall2_same_length_lookup. split.
  { by eapply Forall2_length. }
  intros i sel1 sel2 Hi1 Hi2.
  destruct (Forall2_lookup_r _ _ _ _ _ Heach1 Hi1) as (sel & Hi & Hrel1).
  destruct (Forall2_lookup_l _ _ _ _ _ Heach2 Hi1) as (sel2' & Hi2' & Hrel2).
  assert (sel2' = sel2) as -> by congruence.
  destruct (decide (listed sel)) as [Hl|Hl].
  - pose proof (rebuild_id _ _ _ Hrel1) as Hid1.
    assert (listed sel1) as Hl1 by (unfold listed in *; by rewrite Hid1).
    rewrite decide_True in Hrel2 by done.
    split; [by eapply rebuild_id|].
    pose proof (kept_entry_rebuilt _ _ _ Hnone Hrel1) as Hkept.
    apply rebuild_options in Hrel1 as (o0 & H0 & Hopts1).
    apply rebuild_options in Hrel2 as (o1 & H1 & Hopts2).
    rewrite Hopts2, Hopts1, Hid1. f_equal.
    unfold kept_entry, Dom.item in *. cbn in H0, H1.
    destruct (Dom.options sel) as [|a l]; [done|]. injection H0 as ->.
    destruct (Dom.options sel1) as [|b l1]; [done|]. by injection H1 as ->.
  - subst sel1. rewrite decide_False in Hrel2 by done. by subst sel2.
Qed.


End Selects.

(** ** Adding and removing sources *)
Section Lifecycle.
Context {Model PS : Type} `{!JsValue Model} `{!Source.t Model PS}.
Implicit Types (w : world (PS:=PS)) (sel : Dom.select) (o : object (PS:=PS)).

Lemma rebuild_empty (opts : list Dom.opt) sel :
  Dom.options sel = [] → rebuild opts sel = inl TypeError.
Proof.
  intros Hempty. apply rebuild_inl. split; [|done].
  unfold selected_value, Dom.item. rewrite Hempty.
  by destruct (_ <? 0).
Qed.

Lemma updateGUI_Throw_TypeError w e w' :
  updateGUI w = Throw e w' → e = TypeError.
Proof.
  unfold updateGUI.
  destruct (each _ _) as [doc [e'|]] eqn:Heach; [|done]. intros [= <- _].
  apply each_Some in Heach as (sel & _ & _ & Hr).
  by apply rebuild_inl in Hr as [_ ->].
Qed.

(** A listed select without option makes [updateGUI] raise. *)
Lemma updateGUI_raises w sel :
  sel ∈ document w → listed sel → Dom.options sel = [] →
  ∃ w1, updateGUI w = Throw TypeError w1
        ∧ heap w1 = heap w ∧ sources w1 = sources w ∧ trace w1 = trace w.
Proof.
  intros Hin Hl Hempty. destruct (updateGUI w) as [[] w1|e w1] eqn:Hrun.
  - exfalso. unfold updateGUI in Hrun.
    destruct (each _ _) as [doc [e|]] eqn:Heach; [done|].
    apply each_None in Heach.
    apply list_elem_of_lookup in Hin as [i Hi].
    destruct (Forall2_lookup_l _ _ _ _ _ Heach Hi) as (sel' & _ & Hsel).
    rewrite decide_True in Hsel by done.
    by rewrite (rebuild_empty _ _ Hempty) in Hsel.
  - pose proof (updateGUI_Throw_TypeError _ _ _ Hrun) as ->.
    exists w1. by apply updateGUI_Throw_inv in Hrun as (? & ? & ?).
Qed.

(** X7. With a listed select that has no option in the page, [remove]
    of a source of the store raises a [TypeError] once the entry under
    the name of the source is deleted: nothing is sent, and the store is
    as before, so a [linkTarget] that pointed to the source still
    does. *)
Theorem remove_raises_on_empty_select w p o sel :
  heap w !! p = Some o →
  sel ∈ document w → listed sel → Dom.options sel = [] →
  ∃ w1, remove p w = Throw TypeError w1
        ∧ sources w1 = JsObj.delete (sources w) (Source.getName (impl o))
        ∧ heap w1 = heap w ∧ trace w1 = trace w.
Proof.
  intros Hp Hin Hl Hempty.
  destruct (updateGUI_raises
              (set_sources
                 (JsObj.delete (sources w) (Source.getName (impl o))) w) sel)
    as (w1 & Hrun & Hh & Hs & Ht); [done..|].
  exists w1. split_and!; [|done..]. by apply (remove_throws w p o).
Qed.

(** X19. Suppose [remove] returns and leaves registered no name but the
    one read back from the id of some listed select, whose first entry
    is not [None].  That select is left without option, and from then
    on [remove] of any source of the store raises a [TypeError]. *)
Theorem remove_last_counterpart w p w' sel :
  remove p w = Return tt w' →
  sel ∈ document w → listed sel → kept_entry sel = [] →
  (∀ n, is_Some (JsObj.get (sources w') n) → n = select_name (Dom.id sel)) →
  (∃ sel', sel' ∈ document w' ∧ Dom.id sel' = Dom.id sel
           ∧ Dom.options sel' = [])
  ∧ ∀ q oq, heap w' !! q = Some oq →
            ∃ w2, remove q w' = Throw TypeError w2.
Proof.
  intros (o & w1 & Ho & Hgui & Hscan)%remove_inv Hin Hl Hkept Hnames.
  pose proof (updateGUI_inv _ _ Hgui) as (_ & Hs1 & _).
  apply updateGUI_page in Hgui. cbn in Hgui.
  apply unlink_loop_inv in Hscan as (Hs & Hd & _).
  apply list_elem_of_lookup in Hin as [i Hi].
  destruct (Forall2_lookup_l _ _ _ _ _ Hgui Hi) as (sel' & Hi' & Hsel).
  rewrite decide_True in Hsel by done.
  destruct Hsel as (Hid & rest & Hopts & _ & Hrest).
  assert (rest = []) as ->.
  { destruct rest as [|x rest]; [done|]. exfalso.
    destruct (Hrest (Dom.value x)) as [[Hreg Hne] _]; [by left|].
    apply Hne, Hnames. by rewrite Hs, Hs1. }
  rewrite Hkept in Hopts. cbn in Hopts.
  assert (sel' ∈ document w') as Hin'.
  { rewrite Hd. apply list_elem_of_lookup. by eexists. }
  split; [by exists sel'|]. intros q oq Hq.
  destruct (updateGUI_raises
              (set_sources
                 (JsObj.delete (sources w') (Source.getName (impl oq))) w')
              sel') as (w2 & Hrun & _); [done| |done|].
  { unfold listed in *. by rewrite Hid. }
  exists w2. by apply (remove_throws w' q oq).
Qed.

(** X10. When [remove] of a source returns, no listed select of the page
    offers the name of the source any more (a name other than [None],
    which is the value of the entry push selects keep). *)
Theorem remove_unlists w p o w' :
  heap w !! p = Some o →
  Source.getName (impl o) ≠ "None" →
  remove p w = Return tt w' →
  ∀ sel', sel' ∈ document w' → listed sel' →
          Source.getName (impl o) ∉ offered sel'.
Proof.
  intros Hp Hnone (o' & w1 & Ho' & Hgui & Hscan)%remove_inv sel' Hin Hl Hoff.
  assert (o' = o) as -> by congruence.
  apply updateGUI_page in Hgui. cbn in Hgui.
  apply unlink_loop_inv in Hscan as (_ & Hd & _).
  rewrite Hd in Hin. apply list_elem_of_lookup in Hin as [i Hi].
  destruct (Forall2_lookup_r _ _ _ _ _ Hgui Hi) as (sel & Hsel & Hrel).
  case_decide as Hlisted.
  - destruct Hrel as (Hid & rest & Hopts & _ & Hrest).
    unfold offered in Hoff. rewrite Hopts, fmap_app in Hoff.
    apply elem_of_app in Hoff as [Hoff|Hoff].
    + unfold kept_entry in Hoff. destruct (Dom.options sel) as [|o0 l].
      * by apply elem_of_nil in Hoff.
      * case_decide as H0; [|by apply elem_of_nil in Hoff].
        apply list_elem_of_singleton in Hoff. congruence.
    + apply Hrest in Hoff as [[l Hl'] _].
      by rewrite get_delete_eq in Hl'.
  - subst sel'. done.
Qed.

Lemma unlink_loop_frame p (ns : list string) w :
  match forEach (unlink p) ns w with
  | Return _ w' | Throw _ w' =>
      sources w' = sources w ∧ document w' = document w ∧ trace w' = trace w
  end.
Proof.
  revert w. induction ns as [|name ns IH]; intros w; [done|].
  cbn [forEach]. unfold bind at 1.
  assert (match unlink p name w with
          | Return _ w' | Throw _ w' =>
              sources w' = sources w ∧ document w' = document w
              ∧ trace w' = trace w
          end) as Hstep.
  { unfold unlink, bind, source_at, deref, modify, ret.
    destruct (JsObj.get _ _); [|done]. destruct (heap w !! _); [|done].
    by case_decide. }
  destruct (unlink p name w) as [[] w1|e w1]; [|done].
  specialize (IH w1). destruct Hstep as (Hs & Hd & Ht).
  destruct (forEach (unlink p) ns w1); by rewrite <- Hs, <- Hd, <- Ht.
Qed.

(** Whatever comes of [remove], the table it leaves is the one it had
    without the entry under the name of the source. *)
Lemma remove_table w p o :
  heap w !! p = Some o →
  match remove p w with
  | Return _ w' | Throw _ w' =>
      sources w' = JsObj.delete (sources w) (Source.getName (impl o))
      ∧ trace w' = trace w
  end.
Proof.
  intros Hp. unfold remove.
  rewrite (bind_Return _ _ _ _ _ (call_getName_Some _ _ _ Hp)).
  unfold bind at 1, modify. unfold bind at 1.
  destruct (updateGUI _) as [[] w1|e w1] eqn:Hgui.
  - apply updateGUI_inv in Hgui as (_ & Hs & Ht).
    unfold bind at 1, gets.
    pose proof (unlink_loop_frame p (JsObj.keys (sources w1)) w1) as Hloop.
    destruct (forEach _ _ w1) as [[] w'|e w'];
      destruct Hloop as (-> & _ & ->); by rewrite Hs, Ht.
  - by apply updateGUI_Throw_inv in Hgui as (_ & -> & ->).
Qed.

(** Nothing but [add] changes the prototype of the table. *)
Lemma remove_proto w p :
  match remove p w with
  | Return _ w' | Throw _ w' => proto w' = proto w
  end.
Proof.
  unfold remove, call_getName, deref, bind at 1 2.
  destruct (heap w !! p) as [o|]; [|done]. unfold ret, bind at 1, modify.
  unfold bind at 1, updateGUI.
  destruct (each _ _) as [doc [e|]]; [done|].
  unfold bind at 1, gets. cbn [sources set_document set_sources].
  set (w1 := set_document doc _).
  assert (proto w1 = proto w) as <- by done.
  generalize (JsObj.keys (JsObj.delete (sources w)
                            (Source.getName (impl o)))).
  clearbody w1. intros ns. revert w1.
  induction ns as [|name ns IH]; intros w1; [done|].
  cbn [forEach]. unfold bind at 1.
  assert (match unlink p name w1 with
          | Return _ w' | Throw _ w' => proto w' = proto w1
          end) as Hstep.
  { unfold unlink, bind, source_at, deref, modify, ret.
    destruct (JsObj.get _ _); [|done]. destruct (heap w1 !! _); [|done].
    by case_decide. }
  destruct (unlink p name w1) as [[] w2|e w2]; [|done].
  specialize (IH w2). rewrite <- Hstep.
  by destruct (forEach (unlink p) ns w2).
Qed.

(** X8. Let the table have the prototype it was made with.  After [add]
    of a source of the store, [getSource] finds the source under its
    name; [add] raises nothing, sends nothing and leaves the store and
    the page as they were.  For a source not called [__proto__],
    [getSource] finds under any other name what it found before.  A
    source called [__proto__] gets no entry when the table has none of
    that name: it becomes the prototype of the table, and any other
    name the table has no entry for is then read through that source. *)
Theorem add_then_getSource w p o :
  heap w !! p = Some o →
  proto w = None →
  ∃ w', add p w = Return tt w'
        ∧ getSource (Source.getName (impl o)) w' = Return (Ref p) w'
        ∧ (Source.getName (impl o) ≠ "__proto__" →
           ∀ n, n ≠ Source.getName (impl o) →
                getSource n w' = Return (read n w) w')
        ∧ (Source.getName (impl o) = "__proto__" →
           JsObj.get (sources w) "__proto__" = None →
           sources w' = sources w
           ∧ ∀ n, n ≠ "__proto__" → JsObj.get (sources w) n = None →
                  getSource n w' = Return (Via p n) w')
        ∧ heap w' = heap w ∧ document w' = document w ∧ trace w' = trace w.
Proof.
  intros Hp Hplain. eexists. split; [by apply add_run|].
  unfold getSource, gets, read.
  destruct (decide (Source.getName (impl o) = "__proto__"
                    ∧ JsObj.get (sources w) (Source.getName (impl o)) = None))
    as [[Hname Hfree]|Hentry]; cbn [sources proto set_proto set_sources heap
                                    document trace].
  - split_and!; try done.
    + by rewrite Hfree, Hname, decide_True.
    + intros _ _. split; [done|]. intros n Hn ->.
      by rewrite decide_False.
  - split_and!; try done.
    + by rewrite get_set_eq.
    + intros _ n Hn. by rewrite get_set_ne.
    + intros Hname Hfree. destruct Hentry. by rewrite Hname.
Qed.

(** X9. Let the table have the prototype it was made with.  After
    [remove] of a source of the store, whether it returned or raised,
    the table has no entry under the name of the source, whichever
    source it held: [getSource] finds nothing under that name, or, when
    the name is one of [Object.prototype], what the table inherits
    under it.  Under any other name [getSource] finds what it found
    before. *)
Theorem remove_then_getSource w p o :
  heap w !! p = Some o →
  proto w = None →
  ∃ w', (remove p w = Return tt w' ∨ ∃ e, remove p w = Throw e w')
        ∧ getSource (Source.getName (impl o)) w'
          = Return (if JsObj.inherited (Source.getName (impl o))
                    then Builtin (Source.getName (impl o))
                    else Undefined) w'
        ∧ ∀ n, n ≠ Source.getName (impl o) →
               getSource n w' = Return (read n w) w'.
Proof.
  intros Hp Hplain. pose proof (remove_table w p o Hp) as Htable.
  pose proof (remove_proto w p) as Hproto.
  unfold getSource, gets, read.
  destruct (remove p w) as [[] w'|e w']; destruct Htable as [Hs _];
    exists w'; rewrite Hs, Hproto, Hplain; (split_and!; [by eauto| |]).
  - by rewrite get_delete_eq.
  - intros n Hn. by rewrite get_delete_ne.
  - by rewrite get_delete_eq.
  - intros n Hn. by rewrite get_delete_ne.
Qed.

(** X24. When [remove] returns, nothing has been sent to any source, and
    every object of the store is still there with the state it had; its
    [linkTarget] is as before unless it was the removed source, and as
    before in any case for an object that is not registered. *)
Theorem remove_touches_links_only w p w' :
  remove p w = Return tt w' →
  trace w' = trace w
  ∧ (∀ l, heap w !! l = None → heap w' !! l = None)
  ∧ ∀ l ol, heap w !! l = Some ol →
            ∃ ol', heap w' !! l = Some ol'
                   ∧ impl ol' = impl ol
                   ∧ (linkTarget ol ≠ Some p → ol' = ol)
                   ∧ (¬ registered w' l → ol' = ol).
Proof.
  intros (o & w1 & Ho & Hgui & Hscan)%remove_inv.
  apply updateGUI_inv in Hgui as (Hh1 & Hs1 & Ht1).
  apply unlink_loop_inv in Hscan as (Hs & _ & Ht & Hheap & Hnone & _).
  rewrite Hh1 in Hheap, Hnone. cbn in *.
  split_and!; [congruence|done|].
  intros l ol Hl.
  destruct (Hheap l ol Hl) as [Hsame|(Hcut & Hlink & name & Hin & Hget)].
  - by exists ol.
  - exists (unlinked ol). split_and!; [done|done| |].
    + by intros ?.
    + intros Hreg. exfalso. apply Hreg. exists name. by rewrite Hs.
Qed.




End Lifecycle.

(** ** More on the queries and the broadcasts *)
Section Queries.
Context {Model PS : Type} `{!JsValue Model} `{!Source.t Model PS}.
Implicit Types (w : world (PS:=PS)) (sel : Dom.select) (o : object (PS:=PS)).

(** X11. Two names without hyphen that get the same select id are the
    same name. *)
Theorem select_id_of_inj (n1 n2 : string) :
  JsString.contains_char "-" n1 = false →
  JsString.contains_char "-" n2 = false →
  select_id_of n1 = select_id_of n2 → n1 = n2.
Proof.
  intros H1%replace_round_trip H2%replace_round_trip Hid.
  unfold select_id_of in Hid. apply (inj _) in Hid. congruence.
Qed.

(** X13. Take a well-formed world whose table has the prototype it was
    made with, and a reference source of the store whose select id
    jQuery takes as it stands.  By what the table has under the value
    of that select, [getSelectedSkeletons] does one of three things.  A
    source: it returns what the source has selected, with one alert
    when that is nothing.  Nothing, the name being none of
    [Object.prototype]: it logs to the console and returns the empty
    array.  Nothing, the name being one of [Object.prototype]: it
    raises a [TypeError] and sends nothing.  Whenever it returns, the
    store, the table and the page are as they were, and it returns the
    empty array exactly when it has sent a message. *)
Theorem getSelectedSkeletons_cases w r o :
  wf w → heap w !! r = Some o → proto w = None →
  Dom.simple_id (select_id_of (Source.getName (impl o))) = true →
  match JsObj.get (sources w) (selected_key w (Source.getName (impl o)))
  with
  | Some s =>
      ∃ os, heap w !! s = Some os
            ∧ getSelectedSkeletons r w
              = Return (Source.getSelectedSkeletons (impl os))
                  (if decide (Source.getSelectedSkeletons (impl os) = [])
                   then emit (GrowlAlert "Info"
                                ("No skeletons available at "
                                 +:+ Source.getName (impl os))) w
                   else w)
  | None =>
      getSelectedSkeletons r w
      = if JsObj.inherited (selected_key w (Source.getName (impl o)))
        then Throw TypeError w
        else Return [] (emit (ConsoleLog
                                ("No source found for reference source "
                                 +:+ Source.getName (impl o))) w)
  end
  ∧ ∀ ids w', getSelectedSkeletons r w = Return ids w' →
              heap w' = heap w ∧ sources w' = sources w
              ∧ document w' = document w
              ∧ (ids = [] ↔ trace w' ≠ trace w).
Proof.
  intros Hwf Hr Hplain _.
  assert (Hgrow : ∀ e, trace (emit e w) ≠ trace w).
  { intros e Heq. apply (f_equal List.length) in Heq. cbn in Heq.
    rewrite length_app in Heq. cbn in Heq. lia. }
  pose proof (read_plain (selected_key w (Source.getName (impl o))) w Hplain)
    as Hread.
  destruct (JsObj.get (sources w) (selected_key w (Source.getName (impl o))))
    as [s|] eqn:Hsel.
  - destruct (Hwf _ _ Hsel) as [os Hs].
    rewrite (getSelectedSkeletons_resolved r o s os w Hr Hread Hs).
    split; [by exists os|]. intros ids w' [= <- <-].
    destruct (decide (Source.getSelectedSkeletons (impl os) = []))
      as [Hids|Hids]; (split_and!; [done..|]).
    * split; [intros _; apply Hgrow|done].
    * split; [done|]. by intros Hne.
  - destruct (JsObj.inherited _) eqn:Hin.
    + rewrite (getSelectedSkeletons_builtin r o _ w Hr Hread).
      split; [done|]. by intros ids w'.
    + rewrite (getSelectedSkeletons_miss r o w Hr Hread).
      split; [done|]. intros ids w' [= <- <-].
      split_and!; [done..|]. split; [|done]. intros _. apply Hgrow.
Qed.

(** X14. Take a well-formed world whose table has the prototype it was
    made with, and a reference source of the store whose select id
    jQuery takes as it stands.  By what the table has under the value
    of that select, [getSelectedSkeletonModels] returns the models
    object of the source found there, as it is; or, with nothing there
    and the name none of [Object.prototype], an empty array, with a
    line on the console; or, the name being one of [Object.prototype],
    it raises a [TypeError] and sends nothing.  Whenever it returns, the
    store, the table and the page are as they were. *)
Theorem getSelectedSkeletonModels_cases w r o :
  wf w → heap w !! r = Some o → proto w = None →
  Dom.simple_id (select_id_of (Source.getName (impl o))) = true →
  match JsObj.get (sources w) (selected_key w (Source.getName (impl o)))
  with
  | Some s =>
      ∃ os w', heap w !! s = Some os
               ∧ getSelectedSkeletonModels r w
                 = Return (ObjectOf (Source.getSelectedSkeletonModels
                                       (impl os))) w'
  | None =>
      getSelectedSkeletonModels r w
      = if JsObj.inherited (selected_key w (Source.getName (impl o)))
        then Throw TypeError w
        else Return (ArrayOf [])
               (emit (ConsoleLog ("No source found for reference source "
                                  +:+ Source.getName (impl o))) w)
  end
  ∧ ∀ v w', getSelectedSkeletonModels r w = Return v w' →
            heap w' = heap w ∧ sources w' = sources w
            ∧ document w' = document w.
Proof.
  intros Hwf Hr Hplain _.
  pose proof (read_plain (selected_key w (Source.getName (impl o))) w Hplain)
    as Hread.
  destruct (JsObj.get (sources w) (selected_key w (Source.getName (impl o))))
    as [s|] eqn:Hsel.
  - destruct (Hwf _ _ Hsel) as [os Hs].
    rewrite (getSelectedSkeletonModels_resolved r o s os w Hr Hread Hs).
    split; [by eexists os, _|]. intros v w' [= <- <-].
    by destruct (length_is_zero _).
  - destruct (JsObj.inherited _) eqn:Hin.
    + rewrite (getSelectedSkeletonModels_builtin r o _ w Hr Hread).
      split; [done|]. by intros v w'.
    + rewrite (getSelectedSkeletonModels_miss r o w Hr Hread).
      split; [done|]. by intros v w' [= <- <-].
Qed.

(** X15. Let the table have the prototype it was made with, and let
    the id of the push select of a source and a suffix be one jQuery
    takes as it stands.  The push select as [createPushSelect] makes
    it, once in the page before any element with the same id, has
    [None] chosen: [getSelectedPushSource] finds the source called
    [None] when there is one, and nothing otherwise. *)
Theorem new_push_select_resolves_None w p o (suffix : string) :
  heap w !! p = Some o →
  proto w = None →
  Dom.simple_id (select_id_of (Source.getName (impl o))
                 +:+ "-push-" +:+ suffix) = true →
  ∃ sel, createPushSelect p suffix w = Return sel w
         ∧ getSelectedPushSource p suffix (attach sel w)
           = Return (match JsObj.get (sources w) "None" with
                     | Some source => Ref source
                     | None => Undefined
                     end) (attach sel w).
Proof.
  intros Hp Hplain _.
  destruct (createPushSelect_options w p o suffix Hp)
    as (sel & Hrun & Hid & Hopts).
  exists sel. split; [done|]. unfold getSelectedPushSource.
  assert (heap (attach sel w) !! p = Some o) as Hp' by done.
  rewrite (bind_Return _ _ _ _ _ (createSelectID_Some _ _ _ Hp')).
  unfold selected_source, gets. f_equal.
  assert (Dom.to_property_key
            (Dom.val_by_id
               (select_id_of (Source.getName (impl o)) +:+ "-push-"
                +:+ suffix) (document (attach sel w))) = "None") as ->;
    [|by rewrite read_plain].
  cbn. unfold Dom.val_by_id, Dom.by_id. cbn.
  rewrite bool_decide_eq_true_2 by done.
  assert (Dom.select_val sel = Dom.ValString "None") as ->; [|done].
  revert Hrun. unfold createPushSelect.
  rewrite (bind_Return _ _ _ _ _ (createSelectID_Some _ _ _ Hp)).
  rewrite (bind_Return _ _ _ _ _ (call_getName_Some _ _ _ Hp)).
  unfold bind, createOptions, gets, ret. intros [= <-].
  unfold Dom.select_val.
  destruct (fold_list_push_option (Source.getName (impl o))
              (options_of (sources w))
              (Dom.options_add (Dom.Option "None" "None")
                 (Dom.create (select_id_of (Source.getName (impl o))
                              +:+ "-push-" +:+ suffix)))) as [-> _].
  assert (∀ l s0, Dom.selectedIndex s0 = 0 →
    Dom.selectedIndex
      (fold_left (list_push_option (Source.getName (impl o))) l s0) = 0)
    as Hidx.
  { induction l as [|x l IH]; intros s0 Hs0; [done|].
    cbn [fold_left]. apply IH. unfold list_push_option.
    case_decide; [|done]. cbn. by rewrite Hs0. }
  by rewrite Hidx.
Qed.

(** What a loop of the kind of [broadcast_run] leaves as it was. *)
Lemma broadcast_frame (g : loc → object (PS:=PS) → bool) (c : call)
    (body : string → M (PS:=PS) unit) w :
  (∀ w name l o,
     JsObj.get (sources w) name = Some l → heap w !! l = Some o →
     body name w = if g l o then invoke l c w else Return tt w) →
  (∀ l o, g l o = true → is_Some (apply_call c (impl o))) →
  wf w →
  ∃ w', forEach body (JsObj.keys (sources w)) w = Return tt w'
        ∧ untouched_but_states w w'
        ∧ ∀ l, (∀ o, heap w !! l = Some o → registered w l → g l o = false) →
               heap w' !! l = heap w !! l.
Proof.
  intros Hstep Hcall Hwf.
  destruct (broadcast_run g c body Hstep Hcall (JsObj.keys (sources w)) w)
    as (w' & evs & Hrun & Hs & Hd & _ & Hev & Hc & Hn & Hlt);
    [by apply wf_keys|].
  assert (Hquiet : ∀ l,
    (∀ o, heap w !! l = Some o → registered w l → g l o = false) →
    Invoke l c ∉ evs).
  { intros l Hl (name & l' & o & _ & Hget & Ho & Hg & [= <-])%Hev.
    rewrite (Hl o Ho) in Hg; [done|]. by exists name. }
  exists w'. split_and!; [done| |by intros l ?%Hquiet%Hn].
  split_and!; [done|done| |].
  - intros l. destruct (heap w' !! l) as [o'|] eqn:Hl'.
    + destruct (Hlt l o' Hl') as (o & -> & Hlink). cbn. by rewrite Hlink.
    + destruct (heap w !! l) as [o|] eqn:Hl; [|done]. exfalso.
      destruct (decide (Invoke l c ∈ evs)) as [Hin|Hin].
      * destruct (Hc l Hin) as (? & ? & ? & _). congruence.
      * rewrite (Hn l Hin) in Hl'. congruence.
  - intros l Hreg. apply Hn, Hquiet. intros o _ ?. done.
Qed.

(** X16. On a well-formed world the three broadcasts raise nothing and
    leave as they were the table, the page, the [linkTarget] of every
    object and the objects that are not registered.  Besides,
    [highlight] leaves the caller as it was, and [setVisible] the
    sources without the method. *)
Theorem broadcasts_leave_the_rest w :
  wf w →
  (∀ caller skeleton_id,
     ∃ w', highlight caller skeleton_id w = Return tt w'
           ∧ untouched_but_states w w'
           ∧ heap w' !! caller = heap w !! caller)
  ∧ (∀ skeleton_ids,
       ∃ w', removeSkeletons skeleton_ids w = Return tt w'
             ∧ untouched_but_states w w')
  ∧ (∀ skeleton_ids visible,
       ∃ w', setVisible skeleton_ids visible w = Return tt w'
             ∧ untouched_but_states w w'
             ∧ ∀ l ol, heap w !! l = Some ol → can_setVisible ol = false →
                       heap w' !! l = Some ol).
Proof.
  intros Hwf. split_and!.
  - intros caller skeleton_id.
    destruct (broadcast_frame (λ l _, bool_decide (l ≠ caller))
                (Highlight skeleton_id)
                (λ name, bind (source_at name) (λ source,
                   if decide (source = caller) then ret tt
                   else invoke source (Highlight skeleton_id))) w)
      as (w' & Hrun & Hframe & Hquiet); [| |done|].
    { intros w0 name l o Hl Ho.
      rewrite (bind_Return _ _ _ _ _ (source_at_Some _ _ _ Hl)).
      case_decide as Hc.
      - by rewrite bool_decide_eq_false_2 by (by intros Hne; apply Hne).
      - by rewrite bool_decide_eq_true_2. }
    { intros l o _. by eexists. }
    exists w'. split_and!; [done|done|]. apply Hquiet. intros o _ _.
    by apply bool_decide_eq_false_2; intros Hne; apply Hne.
  - intros skeleton_ids.
    destruct (broadcast_frame (λ _ _, true) (RemoveSkeletons skeleton_ids)
                (λ name, bind (source_at name) (λ source,
                   invoke source (RemoveSkeletons skeleton_ids))) w)
      as (w' & Hrun & Hframe & _); [| |done|].
    { intros w0 name l o Hl Ho.
      by rewrite (bind_Return _ _ _ _ _ (source_at_Some _ _ _ Hl)). }
    { intros l o _. by eexists. }
    by exists w'.
  - intros skeleton_ids visible.
    destruct (broadcast_frame (λ _ o, can_setVisible o)
                (SetVisible skeleton_ids visible)
                (λ name, bind (source_at name) (λ source,
                   bind (deref source) (λ o,
                     if bool_decide (is_Some (Source.setVisible (impl o)))
                     then invoke source (SetVisible skeleton_ids visible)
                     else ret tt))) w)
      as (w' & Hrun & Hframe & Hquiet); [| |done|].
    { intros w0 name l o Hl Ho.
      rewrite (bind_Return _ _ _ _ _ (source_at_Some _ _ _ Hl)).
      rewrite (bind_Return _ _ _ _ _ (deref_Some _ _ _ Ho)).
      unfold can_setVisible. by destruct (bool_decide _). }
    { intros l o [f Hf]%bool_decide_eq_true_1. cbn. rewrite Hf. by eexists. }
    exists w'. split_and!; [done|done|]. intros l ol Hl Hcan.
    rewrite <- Hl. apply Hquiet. intros o Ho _. congruence.
Qed.

Lemma set_set {V : Type} (obj : JsObj.t V) (k : string) (v : V) :
  JsObj.set (JsObj.set obj k v) k v = JsObj.set obj k v.
Proof.
  induction obj as [|[k0 v0] obj IH]; cbn.
  - by rewrite decide_True.
  - case_decide as Hk; cbn; rewrite ?decide_True, ?decide_False by done;
      [done|by rewrite IH].
Qed.

(** X18. [add] of a source that was just added changes nothing.  And
    [add] under a name already in the table leaves [Object.keys] of the
    table as it was: the source that takes the place of another is
    visited where the other was. *)
Theorem add_again w p o :
  heap w !! p = Some o →
  ∃ w1, add p w = Return tt w1
        ∧ add p w1 = Return tt w1
        ∧ (is_Some (JsObj.get (sources w) (Source.getName (impl o))) →
           JsObj.keys (sources w1) = JsObj.keys (sources w)).
Proof.
  intros Hp. eexists. split; [by apply add_run|].
  destruct (decide (Source.getName (impl o) = "__proto__"
                    ∧ JsObj.get (sources w) (Source.getName (impl o)) = None))
    as [[Hname Hfree]|Hentry]; split.
  - rewrite (add_run p o) by done. cbn [sources set_proto].
    by rewrite decide_True.
  - rewrite Hfree. by intros [? ?].
  - rewrite (add_Some p o); [|done|right; cbn; rewrite get_set_eq; by eexists].
    cbn. by rewrite set_set.
  - intros Hin%elem_of_own_keys. unfold JsObj.keys.
    cbn [sources set_sources]. by rewrite own_keys_set, decide_True.
Qed.




(** X21. Let the table have the prototype it was made with, and take a
    reference source of the store whose select id jQuery takes as it
    stands.  [getSelectedSource] raises nothing and changes nothing.
    With no element under that id in the page it gives what reading the
    name [undefined] in [this.sources] gives; with a select that has
    nothing chosen, what reading the name [null] gives; otherwise what
    reading the value chosen in the first element with that id gives:
    the source the table has under it, or what the table inherits
    under it from [Object.prototype], or nothing. *)
Theorem getSelectedSource_resolves w r o :
  heap w !! r = Some o →
  proto w = None →
  Dom.simple_id (select_id_of (Source.getName (impl o))) = true →
  ∃ key,
    getSelectedSource r w
    = Return (match JsObj.get (sources w) key with
              | Some source => Ref source
              | None => if JsObj.inherited key then Builtin key
                        else Undefined
              end) w
    ∧ match Dom.by_id (select_id_of (Source.getName (impl o))) (document w)
      with
      | None => key = "undefined"
      | Some sel =>
          match Dom.item (Dom.options sel) (Dom.selectedIndex sel) with
          | None => key = "null"
          | Some option => key = Dom.value option
          end
      end.
Proof.
  intros Hr Hplain _. exists (selected_key w (Source.getName (impl o))).
  split; [by rewrite (getSelectedSource_Some r o), read_plain|].
  unfold selected_key, Dom.val_by_id, Dom.select_val.
  destruct (Dom.by_id _ _) as [sel|]; [|done].
  by destruct (Dom.item _ _).
Qed.


End Queries.

(** ** The ids of the push selects *)
Section PushIds.
Implicit Types (s t u pat name e suffix : string) (c d x : ascii).

Lemma append_length s t :
  String.length (s +:+ t) = (String.length s + String.length t)%nat.
Proof. induction s as [|x s IH]; simpl; [done|]. by rewrite IH. Qed.

Lemma replace_app c d s t :
  JsString.replace c d (s +:+ t)
  = JsString.replace c d s +:+ JsString.replace c d t.
Proof. induction s as [|x s IH]; simpl; [done|]. by rewrite IH. Qed.

Lemma contains_char_app c s t :
  JsString.contains_char c (s +:+ t)
  = JsString.contains_char c s || JsString.contains_char c t.
Proof.
  induction s as [|x s IH]; simpl; [done|]. by rewrite IH, orb_assoc.
Qed.

Lemma substring_0_app s t : String.substring 0 (String.length s) (s +:+ t) = s.
Proof. induction s as [|x s IH]; simpl; [by destruct t|]. by rewrite IH. Qed.

(** Whether [-push-] starts at a place of the name part of a push id
    does not depend on what follows the [-] after the name. *)
Lemma append_nil_l s : "" +:+ s = s.
Proof. reflexivity. Qed.

Lemma append_cons x s t : String x s +:+ t = String x (s +:+ t).
Proof. reflexivity. Qed.

Lemma prefix_push_straddle x u suffix :
  String.prefix "-push-" (String x (u +:+ "-push-" +:+ suffix))
  = String.prefix "-push-" (String x (u +:+ "-")).
Proof.
  cbn [String.prefix].
  destruct (ascii_dec "-" x); [|done].
  destruct u as [|y1 u]; rewrite ?append_nil_l, ?append_cons;
    cbn [String.prefix]; [by destruct (ascii_dec "p" "-")|].
  destruct (ascii_dec "p" y1); [|done].
  destruct u as [|y2 u]; rewrite ?append_nil_l, ?append_cons;
    cbn [String.prefix]; [by destruct (ascii_dec "u" "-")|].
  destruct (ascii_dec "u" y2); [|done].
  destruct u as [|y3 u]; rewrite ?append_nil_l, ?append_cons;
    cbn [String.prefix]; [by destruct (ascii_dec "s" "-")|].
  destruct (ascii_dec "s" y3); [|done].
  destruct u as [|y4 u]; rewrite ?append_nil_l, ?append_cons;
    cbn [String.prefix]; [by destruct (ascii_dec "h" "-")|].
  destruct (ascii_dec "h" y4); [|done].
  destruct u as [|y5 u]; rewrite ?append_nil_l, ?append_cons;
    cbn [String.prefix]; [by destruct (ascii_dec "-" "-")|].
  destruct (ascii_dec "-" y5); [|done].
  by destruct u.
Qed.

Lemma indexOf_from_here pat s (i : Z) :
  String.prefix pat s = true → JsString.indexOf_from pat s i = i.
Proof. intros Hp. destruct s; cbn [JsString.indexOf_from]; by rewrite Hp. Qed.

(** The first [-push-] of a push id is the first one of the name part
    followed by [-], or else the one that leads the suffix in. *)
Lemma indexOf_from_push s suffix (i : Z) :
  0 ≤ i →
  JsString.indexOf_from "-push-" (s +:+ "-push-" +:+ suffix) i
  = if decide (JsString.indexOf_from "-push-" (s +:+ "-") i = -1)
    then i + JsString.length s
    else JsString.indexOf_from "-push-" (s +:+ "-") i.
Proof.
  revert i. unfold JsString.length.
  induction s as [|x s IH]; intros i Hi.
  - rewrite !append_nil_l.
    rewrite (indexOf_from_here "-push-" ("-push-" +:+ suffix))
      by apply prefix_app_r.
    change (JsString.indexOf_from "-push-" "-" i) with (-1).
    rewrite decide_True by done. cbn. lia.
  - rewrite !(append_cons x s). cbn [JsString.indexOf_from].
    rewrite prefix_push_straddle.
    destruct (String.prefix "-push-" (String x (s +:+ "-"))).
    + rewrite decide_False by lia. done.
    + rewrite IH by lia. case_decide; [|done]. cbn [String.length]. lia.
Qed.

(** X12. Reading back the id of a push select, the id of
    [createSelectID] followed by [-push-] and a suffix, gives the name
    again exactly when the name has no hyphen and, put between two
    spaces, does not hold the word [push] between spaces; the suffix
    plays no part. *)
Theorem push_select_name_round_trip name suffix :
  select_name (select_id_of name +:+ "-push-" +:+ suffix) = name
  ↔ JsString.contains_char "-" name = false
    ∧ JsString.indexOf (String " " (name +:+ " ")) " push " = -1.
Proof.
  set (e := JsString.replace " " "-" name).
  set (r := JsString.indexOf_from "-push-" (String "-" e +:+ "-") 22).
  set (id := select_id_of name +:+ "-push-" +:+ suffix).
  assert (String.length e = String.length name) as He
    by apply replace_length.
  assert (id = select_prefix +:+ (e +:+ "-push-" +:+ suffix)) as Hid by done.
  assert (JsString.length id = 29 + Z.of_nat (String.length name)
                               + Z.of_nat (String.length suffix)) as Hlen.
  { rewrite Hid. unfold JsString.length. rewrite !append_length, He. cbn. lia. }
  assert (JsString.indexOf id "-push-"
          = if decide (r = -1) then 23 + Z.of_nat (String.length name) else r)
    as Hpush.
  { rewrite Hid, indexOf_push_id.
    change (String "-" (e +:+ "-push-" +:+ suffix))
      with (String "-" e +:+ "-push-" +:+ suffix).
    rewrite indexOf_from_push by lia. fold r. case_decide; [|done].
    unfold JsString.length. cbn [String.length]. lia. }
  assert (r = -1 ∨ (22 ≤ r ∧ r ≤ 18 + Z.of_nat (String.length name))) as Hr.
  { destruct (indexOf_from_bounds "-push-" (String "-" e +:+ "-") 22)
      as [?|[? Hb]]; [lia|by left|right].
    fold r in Hb |- *. split; [done|]. unfold JsString.length in Hb.
    rewrite append_length in Hb. cbn [String.length] in Hb. lia. }
  assert (JsString.contains_char "-" name = false →
          r = -1 ↔ JsString.indexOf (String " " (name +:+ " ")) " push " = -1)
    as Hname.
  { intros Hh. unfold r, e.
    change (String "-" (JsString.replace " " "-" name) +:+ "-")
      with (JsString.replace " " "-" (String " " "")
            +:+ JsString.replace " " "-" name
            +:+ JsString.replace " " "-" " ").
    rewrite <- !replace_app.
    change "-push-" with (JsString.replace " " "-" " push ").
    rewrite indexOf_from_replace; [|done|].
    - unfold JsString.indexOf. split; apply indexOf_from_none; lia.
    - by rewrite !contains_char_app, Hh. }
  unfold select_name. fold id. rewrite Hpush.
  destruct (decide (r = -1)) as [Hnone|Hsome].
  - rewrite decide_False by lia.
    assert (JsString.substring id 23 (23 + Z.of_nat (String.length name)) = e)
      as ->.
    { unfold JsString.substring, JsString.clamp. rewrite Hlen.
      replace (Z.to_nat (Z.min (Z.max 23 0) _)) with 23%nat by lia.
      replace (Z.to_nat (Z.min (Z.max (23 + Z.of_nat (String.length name)) 0) _))
        with (23 + String.length name)%nat by lia.
      replace (Nat.min 23 (23 + String.length name)) with 23%nat by lia.
      replace (Nat.max 23 (23 + String.length name) - 23)%nat
        with (String.length e) by lia.
      rewrite Hid.
      change (String.substring 23 (String.length e)
                (select_prefix +:+ (e +:+ "-push-" +:+ suffix)))
        with (String.substring 0 (String.length e)
                (e +:+ "-push-" +:+ suffix)).
      apply substring_0_app. }
    unfold e. rewrite replace_round_trip. split.
    + intros Hh. split; [done|]. by apply Hname.
    + by intros [? _].
  - destruct Hr as [?|[Hlo Hhi]]; [done|].
    rewrite decide_False by lia. split.
    + intros Heq. exfalso. apply (f_equal String.length) in Heq.
      rewrite replace_length in Heq. unfold JsString.substring in Heq.
      pose proof (substring_length_le
        (Nat.min (JsString.clamp id 23) (JsString.clamp id r))
        (Nat.max (JsString.clamp id 23) (JsString.clamp id r)
         - Nat.min (JsString.clamp id 23) (JsString.clamp id r)) id) as Hle.
      unfold JsString.clamp in *. rewrite Hlen in *. lia.
    + intros [Hh Hp]. by apply Hname in Hp.
Qed.

End PushIds.

(** ** What a new select has chosen *)
Section Preselection.
Context {Model PS : Type} `{!JsValue Model} `{!Source.t Model PS}.
Implicit Types (w : world (PS:=PS)) (sel : Dom.select) (l : list Dom.opt).

Lemma indexed_snoc {A : Type} (l : list A) (x : A) :
  indexed (l ++ [x]) = indexed l ++ [(Z.of_nat (length l), x)].
Proof.
  unfold indexed. rewrite imap_app. cbn. by rewrite Nat.add_0_r.
Qed.

Lemma fold_list_option_snoc name l (x : Dom.opt) sel :
  fold_left (list_option name) (indexed (l ++ [x])) sel
  = list_option name (fold_left (list_option name) (indexed l) sel)
      (Z.of_nat (length l), x).
Proof. by rewrite indexed_snoc, fold_left_app. Qed.

Lemma select_val_options_add sel (x : Dom.opt) (v : string) :
  Dom.select_val sel = Dom.ValString v →
  Dom.select_val (Dom.options_add x sel) = Dom.ValString v.
Proof.
  intros (o' & Ho' & Hpos & Hval)%select_val_String.
  apply select_val_String. exists o'. cbn.
  destruct (Z.ltb_spec (Dom.selectedIndex sel) 0); [lia|].
  split_and!; [|done|done]. by apply lookup_app_l_Some.
Qed.

(** Without [Active skeleton] among the options, the select that
    [createSelect] fills has its first option chosen. *)
Lemma fold_list_option_first name l (id : string) :
  "Active skeleton" ∉ Dom.value <$> l →
  Dom.selectedIndex (fold_left (list_option name) (indexed l) (Dom.create id))
  = if decide (Dom.options
                 (fold_left (list_option name) (indexed l) (Dom.create id))
               = [])
    then -1 else 0.
Proof.
  induction l as [|x l IH] using rev_ind; intros Hnot; [done|].
  rewrite fold_list_option_snoc. rewrite fmap_app in Hnot.
  apply not_elem_of_app in Hnot as [Hl Hx].
  specialize (IH Hl). revert IH.
  generalize (fold_left (list_option name) (indexed l) (Dom.create id)).
  intros s IH. unfold list_option.
  rewrite (decide_False (P := Dom.value x = "Active skeleton"))
    by (intros Heq; apply Hx; rewrite <- Heq; by left).
  destruct (decide (Dom.value x ≠ name)); [|done]. cbn. rewrite IH.
  destruct (decide (Dom.options s ++ [x] = [])) as [[_ ?]%app_eq_nil|];
    [done|].
  by destruct (decide (Dom.options s = [])).
Qed.

(** With [Active skeleton] among sorted options and a name that comes
    after it, the select that [createSelect] fills has
    [Active skeleton] chosen. *)
Lemma fold_list_option_active name l (id : string) :
  StronglySorted String.le (Dom.value <$> l) →
  "Active skeleton" ∈ Dom.value <$> l →
  String.le "Active skeleton" name → name ≠ "Active skeleton" →
  Dom.select_val (fold_left (list_option name) (indexed l) (Dom.create id))
  = Dom.ValString "Active skeleton".
Proof.
  intros Hsorted Hin Hle Hne. revert Hsorted Hin.
  induction l as [|x l IH] using rev_ind; intros Hsorted Hin.
  { by apply elem_of_nil in Hin. }
  rewrite fold_list_option_snoc. rewrite fmap_app in Hsorted, Hin.
  apply StronglySorted_app in Hsorted as (Hbelow & Hl & _).
  pose proof (fold_list_option name (indexed l) (Dom.create id)) as [Hopts _].
  rewrite indexed_values in Hopts. cbn in Hopts.
  set (s := fold_left (list_option name) (indexed l) (Dom.create id)) in *.
  clearbody s. unfold list_option.
  destruct (decide (Dom.value x = "Active skeleton")) as [Hx|Hx].
  - rewrite decide_True by congruence.
    assert (filter (λ o, Dom.value o ≠ name) l = l) as Hall.
    { clear IH Hopts Hin Hl. induction l as [|y l IHl]; [done|].
      rewrite filter_cons, decide_True.
      - f_equal. apply IHl. intros x1 x2 Hx1 Hx2. apply Hbelow; [|done].
        rewrite fmap_cons. by right.
      - intros Hy. apply Hne. apply (anti_symm String.le); [|done].
        rewrite <- Hy, <- Hx. apply Hbelow; cbn; by left. }
    rewrite Hall in Hopts. apply select_val_String. exists x. cbn.
    rewrite Hopts, length_app. cbn.
    assert ((0 <=? Z.of_nat (length l))
            && (Z.of_nat (length l) <? Z.of_nat (length l + 1)) = true) as ->.
    { apply andb_true_iff. split; [apply Z.leb_le|apply Z.ltb_lt]; lia. }
    rewrite Nat2Z.id. rewrite lookup_app_r by lia.
    rewrite Nat.sub_diag. split_and!; [done|lia|done].
  - assert ("Active skeleton" ∈ Dom.value <$> l) as Hin'.
    { apply elem_of_app in Hin as [?|Hin]; [done|].
      apply list_elem_of_singleton in Hin. congruence. }
    specialize (IH Hl Hin').
    case_decide; [|done]. by apply select_val_options_add.
Qed.

(** X23. For a source of the store, the select [createSelect] returns
    has [Active skeleton] chosen when a source is registered under that
    name and the name of the source comes after it in the order of the
    options.  When no source is called [Active skeleton], it has its
    first option chosen, and nothing when it offers nothing. *)
Theorem createSelect_preselects w p o :
  heap w !! p = Some o →
  ∃ sel,
    createSelect p w = Return sel w
    ∧ (is_Some (JsObj.get (sources w) "Active skeleton") →
       String.le "Active skeleton" (Source.getName (impl o)) →
       Source.getName (impl o) ≠ "Active skeleton" →
       Dom.select_val sel = Dom.ValString "Active skeleton")
    ∧ (JsObj.get (sources w) "Active skeleton" = None →
       Dom.select_val sel
       = match offered sel with
         | [] => Dom.ValNull
         | n :: _ => Dom.ValString n
         end).
Proof.
  intros Hp. eexists. split_and!.
  - unfold createSelect.
    rewrite (bind_Return _ _ _ _ _ (createSelectID_Some _ _ _ Hp)).
    rewrite (bind_Return _ _ _ _ _ (call_getName_Some _ _ _ Hp)).
    unfold bind, createOptions, gets, ret. reflexivity.
  - intros Hreg Hle Hne. apply fold_list_option_active; [|by apply elem_of_options_of|done..].
    apply options_of_sorted.
  - intros Hnone.
    assert ("Active skeleton" ∉ Dom.value <$> options_of (sources w)) as Hnot.
    { rewrite elem_of_options_of, Hnone. by intros [? ?]. }
    pose proof (fold_list_option_first (Source.getName (impl o)) _
                  (select_id_of (Source.getName (impl o))) Hnot) as Hidx.
    revert Hidx.
    generalize (fold_left (list_option (Source.getName (impl o)))
                  (indexed (options_of (sources w)))
                  (Dom.create (select_id_of (Source.getName (impl o))))).
    intros s Hidx. unfold Dom.select_val, Dom.item, offered. rewrite Hidx.
    by destruct (Dom.options s).
Qed.

End Preselection.

(** ** The further properties on the pages *)
Section MorePages.

Lemma demo_page_selects_wf : ∀ sel, sel ∈ document demo_page → select_wf sel.
Proof.
  intros sel Hin. apply list_elem_of_In in Hin. cbn in Hin.
  destruct Hin as [<-|[<-|[]]]; unfold select_wf; cbn; lia.
Qed.

Lemma active_page_wf : wf active_page.
Proof. apply wf_Forall. repeat constructor; by eexists. Qed.

(** X2 on the demo page, for [A]. *)
Lemma createSelect_lists_others_witness :
  ∃ sel, createSelect 0%nat demo_page = Return sel demo_page
         ∧ createSelectID 0%nat demo_page = Return (Dom.id sel) demo_page
         ∧ listed sel
         ∧ StronglySorted String.le (offered sel)
         ∧ ∀ n, n ∈ offered sel
                ↔ is_Some (JsObj.get (sources demo_page) n) ∧ n ≠ "A".
Proof.
  exact (createSelect_lists_others demo_page 0%nat
           (widget "A" [("1", "n1"); ("2", "n2")]) eq_refl).
Defined.

(** X3 on the demo page, for [A]. *)
Lemma createPushSelect_lists_others_witness :
  ∃ sel rest,
    createPushSelect 0%nat "x" demo_page = Return sel demo_page
    ∧ Dom.id sel = "skeleton-source-select-A-push-x"
    ∧ listed sel
    ∧ Dom.options sel = Dom.Option "None" "None" :: rest
    ∧ Dom.select_val sel = Dom.ValString "None"
    ∧ StronglySorted String.le (Dom.value <$> rest)
    ∧ ∀ n, n ∈ Dom.value <$> rest
           ↔ is_Some (JsObj.get (sources demo_page) n) ∧ n ≠ "A".
Proof.
  exact (createPushSelect_lists_others demo_page 0%nat
           (widget "A" [("1", "n1"); ("2", "n2")]) "x" eq_refl).
Defined.

(** X4 on the demo page. *)
Lemma updateGUI_rebuilds_witness :
  ∃ w', updateGUI demo_page = Return tt w'
        ∧ heap w' = heap demo_page ∧ sources w' = sources demo_page
        ∧ trace w' = trace demo_page
        ∧ Forall2 (λ sel sel', if decide (listed sel)
                               then rebuilt (sources demo_page) sel sel'
                               else sel' = sel)
            (document demo_page) (document w').
Proof.
  eexists. split; [vm_compute; reflexivity|].
  apply (updateGUI_rebuilds demo_page). vm_compute. reflexivity.
Defined.

(** X5 on the select of [B] of the demo page: [A] is chosen and is
    still offered. *)
Lemma rebuild_keeps_selection_witness :
  ∃ sel',
    rebuild (options_of (sources demo_page))
      {| Dom.id := "skeleton-source-select-B";
         Dom.options := [Dom.Option "A" "A"];
         Dom.selectedIndex := 0 |} = inr sel'
    ∧ (("A" : string) ∈ offered sel'
       → Dom.select_val sel' = Dom.ValString "A")
    ∧ (("A" : string) ∉ offered sel'
       → Dom.selectedIndex sel'
         = if decide (Dom.options sel' = []) then -1 else 0).
Proof.
  eexists. split; [vm_compute; reflexivity|].
  apply (rebuild_keeps_selection (options_of (sources demo_page))
           {| Dom.id := "skeleton-source-select-B";
              Dom.options := [Dom.Option "A" "A"];
              Dom.selectedIndex := 0 |}).
  - vm_compute. reflexivity.
  - reflexivity.
Defined.

(** X6 on the demo page. *)
Lemma updateGUI_returns_iff_witness :
  ((∃ w', updateGUI demo_page = Return tt w')
   ↔ ∀ sel, sel ∈ document demo_page → listed sel → Dom.options sel ≠ [])
  ∧ ∀ e w', updateGUI demo_page = Throw e w' →
            e = TypeError ∧ heap w' = heap demo_page
            ∧ sources w' = sources demo_page ∧ trace w' = trace demo_page.
Proof. exact (updateGUI_returns_iff demo_page demo_page_selects_wf). Defined.

(** X7 on the page where [A] is alone. *)
Lemma remove_raises_on_empty_select_witness :
  ∃ w1, remove 0%nat lonely_page = Throw TypeError w1
        ∧ sources w1 = JsObj.delete (sources lonely_page) "A"
        ∧ heap w1 = heap lonely_page ∧ trace w1 = trace lonely_page.
Proof.
  exact (remove_raises_on_empty_select lonely_page 0%nat (widget "A" [])
           {| Dom.id := "skeleton-source-select-A";
              Dom.options := [];
              Dom.selectedIndex := -1 |}
           eq_refl (list_elem_of_here _ _) eq_refl eq_refl).
Defined.

(** X8 on the demo page: the second [A] takes the name. *)
Lemma add_then_getSource_witness :
  ∃ w', add 4%nat demo_page = Return tt w'
        ∧ getSource "A" w' = Return (Ref 4%nat) w'
        ∧ (("A" : string) ≠ "__proto__" →
           ∀ n, n ≠ "A" → getSource n w' = Return (read n demo_page) w')
        ∧ (("A" : string) = "__proto__" →
           JsObj.get (sources demo_page) "__proto__" = None →
           sources w' = sources demo_page
           ∧ ∀ n, n ≠ "__proto__" → JsObj.get (sources demo_page) n = None →
                  getSource n w' = Return (Via 4%nat n) w')
        ∧ heap w' = heap demo_page ∧ document w' = document demo_page
        ∧ trace w' = trace demo_page.
Proof.
  exact (add_then_getSource demo_page 4%nat (widget "A" [("7", "n7")])
           eq_refl eq_refl).
Defined.

(** X9 on the demo page: [remove] of the second [A], which is not
    registered, takes the first one out of the table. *)
Lemma remove_then_getSource_witness :
  ∃ w', (remove 4%nat demo_page = Return tt w'
         ∨ ∃ e, remove 4%nat demo_page = Throw e w')
        ∧ getSource "A" w' = Return Undefined w'
        ∧ ∀ n, n ≠ "A" → getSource n w' = Return (read n demo_page) w'.
Proof.
  exact (remove_then_getSource demo_page 4%nat (widget "A" [("7", "n7")])
           eq_refl eq_refl).
Defined.

(** X10 on the demo page, for [A]. *)
Lemma remove_unlists_witness :
  ∃ w', remove 0%nat demo_page = Return tt w'
        ∧ ∀ sel', sel' ∈ document w' → listed sel' →
                  ("A" : string) ∉ offered sel'.
Proof.
  eexists. split; [vm_compute; reflexivity|].
  refine (remove_unlists demo_page 0%nat
            (widget "A" [("1", "n1"); ("2", "n2")]) _ eq_refl _ _).
  - discriminate.
  - vm_compute. reflexivity.
Defined.

(** X11 on a name of CATMAID. *)
Lemma select_id_of_inj_witness :
  select_id_of "Selection 1" = "skeleton-source-select-Selection-1"
  ∧ ("Selection 1" : string) = "Selection 1".
Proof.
  split; [reflexivity|].
  apply (select_id_of_inj "Selection 1" "Selection 1"); reflexivity.
Defined.

(** X13 on the demo page, for [A], whose select has [C] chosen. *)
Lemma getSelectedSkeletons_cases_witness :
  (∃ os, heap demo_page !! 2%nat = Some os
         ∧ getSelectedSkeletons 0%nat demo_page
           = Return (Source.getSelectedSkeletons (impl os))
               (if decide (Source.getSelectedSkeletons (impl os) = [])
                then emit (GrowlAlert "Info"
                             ("No skeletons available at "
                              +:+ Source.getName (impl os))) demo_page
                else demo_page))
  ∧ ∀ ids w', getSelectedSkeletons 0%nat demo_page = Return ids w' →
              heap w' = heap demo_page ∧ sources w' = sources demo_page
              ∧ document w' = document demo_page
              ∧ (ids = [] ↔ trace w' ≠ trace demo_page).
Proof.
  exact (getSelectedSkeletons_cases demo_page 0%nat
           (widget "A" [("1", "n1"); ("2", "n2")]) demo_page_wf eq_refl
           eq_refl eq_refl).
Defined.

(** X14 on the demo page, for [A]. *)
Lemma getSelectedSkeletonModels_cases_witness :
  (∃ os w', heap demo_page !! 2%nat = Some os
            ∧ getSelectedSkeletonModels 0%nat demo_page
              = Return (ObjectOf (Source.getSelectedSkeletonModels
                                    (impl os))) w')
  ∧ ∀ v w', getSelectedSkeletonModels 0%nat demo_page = Return v w' →
            heap w' = heap demo_page ∧ sources w' = sources demo_page
            ∧ document w' = document demo_page.
Proof.
  exact (getSelectedSkeletonModels_cases demo_page 0%nat
           (widget "A" [("1", "n1"); ("2", "n2")]) demo_page_wf eq_refl
           eq_refl eq_refl).
Defined.

(** X15 on the demo page, for [A]. *)
Lemma new_push_select_resolves_None_witness :
  ∃ sel, createPushSelect 0%nat "x" demo_page = Return sel demo_page
         ∧ getSelectedPushSource 0%nat "x" (attach sel demo_page)
           = Return Undefined (attach sel demo_page).
Proof.
  exact (new_push_select_resolves_None demo_page 0%nat
           (widget "A" [("1", "n1"); ("2", "n2")]) "x" eq_refl eq_refl
           eq_refl).
Defined.

(** X16 on the demo page. *)
Lemma broadcasts_leave_the_rest_witness :
  (∀ caller skeleton_id,
     ∃ w', highlight caller skeleton_id demo_page = Return tt w'
           ∧ untouched_but_states demo_page w'
           ∧ heap w' !! caller = heap demo_page !! caller)
  ∧ (∀ skeleton_ids,
       ∃ w', removeSkeletons skeleton_ids demo_page = Return tt w'
             ∧ untouched_but_states demo_page w')
  ∧ (∀ skeleton_ids visible,
       ∃ w', setVisible skeleton_ids visible demo_page = Return tt w'
             ∧ untouched_but_states demo_page w'
             ∧ ∀ l ol, heap demo_page !! l = Some ol →
                       can_setVisible ol = false →
                       heap w' !! l = Some ol).
Proof. exact (broadcasts_leave_the_rest demo_page demo_page_wf). Defined.

(** X18 on the demo page, for the second [A]. *)
Lemma add_again_witness :
  ∃ w1, add 4%nat demo_page = Return tt w1
        ∧ add 4%nat w1 = Return tt w1
        ∧ (is_Some (JsObj.get (sources demo_page) "A") →
           JsObj.keys (sources w1) = JsObj.keys (sources demo_page)).
Proof.
  exact (add_again demo_page 4%nat (widget "A" [("7", "n7")]) eq_refl).
Defined.

(** X19 on the page of [A] and [B]: after [remove(B)] the select of [A]
    offers nothing and every [remove] raises. *)
Lemma remove_last_counterpart_witness :
  ∃ w', remove 1%nat pair_page = Return tt w'
        ∧ (∃ sel', sel' ∈ document w'
                   ∧ Dom.id sel' = "skeleton-source-select-A"
                   ∧ Dom.options sel' = [])
        ∧ ∀ q oq, heap w' !! q = Some oq →
                  ∃ w2, remove q w' = Throw TypeError w2.
Proof.
  eexists. split; [vm_compute; reflexivity|].
  apply (remove_last_counterpart pair_page 1%nat _
           {| Dom.id := "skeleton-source-select-A";
              Dom.options := [Dom.Option "B" "B"];
              Dom.selectedIndex := 0 |}).
  - vm_compute. reflexivity.
  - by left.
  - reflexivity.
  - reflexivity.
  - intros n [l Hl]. cbn in Hl. by case_decide.
Defined.


(** X23 on the page of the three, for [Selection 1]. *)
Lemma createSelect_preselects_witness :
  ∃ sel,
    createSelect 1%nat active_page = Return sel active_page
    ∧ Dom.select_val sel = Dom.ValString "Active skeleton".
Proof.
  destruct (createSelect_preselects active_page 1%nat
              (widget "Selection 1" []) eq_refl) as (sel & Hrun & Hactive & _).
  exists sel. split; [done|]. apply Hactive.
  - by eexists.
  - vm_compute. exact I.
  - discriminate.
Defined.

(** X24 on the demo page, for [A]. *)
Lemma remove_touches_links_only_witness :
  ∃ w', remove 0%nat demo_page = Return tt w'
        ∧ trace w' = trace demo_page
        ∧ (∀ l, heap demo_page !! l = None → heap w' !! l = None)
        ∧ ∀ l ol, heap demo_page !! l = Some ol →
                  ∃ ol', heap w' !! l = Some ol'
                         ∧ impl ol' = impl ol
                         ∧ (linkTarget ol ≠ Some 0%nat → ol' = ol)
                         ∧ (¬ registered w' l → ol' = ol).
Proof.
  eexists. split; [vm_compute; reflexivity|].
  apply (remove_touches_links_only demo_page 0%nat). vm_compute. reflexivity.
Defined.

(** X21 on the demo page, for [A]. *)
Lemma getSelectedSource_resolves_witness :
  ∃ key,
    getSelectedSource 0%nat demo_page
    = Return (match JsObj.get (sources demo_page) key with
              | Some source => Ref source
              | None => if JsObj.inherited key then Builtin key
                        else Undefined
              end) demo_page
    ∧ key = "C".
Proof.
  exact (getSelectedSource_resolves demo_page 0%nat
           (widget "A" [("1", "n1"); ("2", "n2")]) eq_refl eq_refl eq_refl).
Defined.


(** X22 on the demo page. *)
Lemma updateGUI_twice_witness :
  ∃ w1 w2,
    updateGUI demo_page = Return tt w1 ∧ updateGUI w1 = Return tt w2
    ∧ Forall2 (λ sel1 sel2, Dom.id sel2 = Dom.id sel1
                            ∧ Dom.options sel2 = Dom.options sel1)
        (document w1) (document w2).
Proof.
  eexists _, _. split; [vm_compute; reflexivity|].
  split; [vm_compute; reflexivity|].
  refine (updateGUI_twice demo_page _ _ eq_refl _ _);
    vm_compute; reflexivity.
Defined.


End MorePages.
